(** * SHADERed render engine: a shallow embedding of [Objects/RenderEngine.cpp]

    The development follows the C++ source function by function.  Pointers
    are addresses ([ptr], with [nullptr = 0]) and the objects behind them are
    read through a [Memory]; [std::vector] members are lists whose
    out-of-range accesses are undefined behaviour ([UB]); the engine's member
    variables form the record [RenderEngine], threaded through a small
    state-and-error monad. *)

From Stdlib Require Import ZArith QArith List String Ascii Bool Lia Arith.
From stdpp Require Import base gmap.
Import ListNotations.

Local Open Scope Z_scope.

(** ** Outcomes and the engine monad *)

Inductive result (A : Type) : Type :=
| Ok (a : A)
| UB.
Arguments Ok {A} a.
Arguments UB {A}.

Definition ptr := Z.
Definition GLuint := Z.
Definition nullptr : ptr := 0.

(** ** Pipeline data (PipelineItem.h is not part of the sources; the fields
    below are the ones RenderEngine.cpp reads) *)

Inductive ItemType :=
| ShaderPass | ComputePass | AudioPass | RenderState | Geometry | Model | PluginItem.

Inductive GeometryType :=
| Cube | Rectangle | Circle | Triangle | Sphere | Plane | ScreenQuadNDC.

Definition ItemType_eqb (a b : ItemType) : bool :=
  match a, b with
  | ShaderPass, ShaderPass | ComputePass, ComputePass | AudioPass, AudioPass
  | RenderState, RenderState | Geometry, Geometry | Model, Model
  | PluginItem, PluginItem => true
  | _, _ => false
  end.

(** [PipelineItem]: the header every item carries; [Data] points to the
    type-specific payload. *)
Record PipelineItem := {
  Name : string;
  Type_ : ItemType;
  Data : ptr
}.

(** The fields of [pipe::ShaderPass] that the engine reads.  [FBO] is the
    pass-owned framebuffer name the engine writes; it lives in the engine
    state's [pass_FBO] store below. *)
Record ShaderPassData := {
  Active : bool;
  Items : list ptr;
  RTCount : nat;
  RenderTextures : list GLuint;
  GSUsed : bool;
  VSPath : string;
  PSPath : string;
  GSPath : string;
  GSEntry : string
}.

Record ComputePassData := { Path : string }.

(** Hit distances along the pick ray: a finite value or
    [std::numeric_limits<float>::infinity()]. *)
Inductive Dist :=
| Fin (q : Q)
| Inf.

(** The comparison [a < b] of two distances. *)
Definition Dist_ltb (a b : Dist) : bool :=
  match a, b with
  | Fin x, Fin y => negb (Qle_bool y x)
  | Fin _, Inf => true
  | Inf, _ => false
  end.

Definition Dist_is_inf (a : Dist) : bool :=
  match a with Inf => true | Fin _ => false end.

(** What the engine reads through its pointers.  The geometric tests
    ([ray::IntersectBox], [ray::IntersectTriangle], [glm::intersectRaySphere],
    the plugin's [IntersectPipelineItem]) live outside the sources: their
    verdict for the current pick ray is a field here. *)
Record Memory := {
  item : ptr -> PipelineItem;
  shaderPass : ptr -> ShaderPassData;
  computePass : ptr -> ComputePassData;
  geometryType : ptr -> GeometryType;
  pluginPickable : ptr -> bool;
  IntersectBox : ptr -> option Dist;
  IntersectTriangle : ptr -> option Dist;
  intersectRaySphere : ptr -> Dist;
  modelTriangles : ptr -> list (list (option Dist));
  IntersectPipelineItem : ptr -> option Dist
}.

(** ** OpenGL context: object names and the calls that create or destroy them *)

Inductive Stage := VertexStage | PixelStage | GeometryStage | ComputeStage.

Inductive GLCall :=
| CompileShader (stage : Stage) (pass : ptr) (name : GLuint)
| CompileSource (stage : Stage) (src : string) (name : GLuint)
| DeleteShader (name : GLuint)
| CreateProgram (name : GLuint)
| DeleteProgram (name : GLuint)
| GenFramebuffer (name : GLuint)
| DeleteFramebuffer (name : GLuint).

Record GLContext := {
  gl_next : GLuint;
  gl_programs : list GLuint;
  gl_calls : list GLCall
}.

Record ShaderPack := { VS : GLuint; PS : GLuint; GS : GLuint }.

(** ** The engine's member variables *)

Record RenderEngine := {
  m_items : list ptr;
  m_shaders : list GLuint;
  m_debugShaders : list GLuint;
  m_shaderSources : list ShaderPack;
  m_fbos : gmap ptr (list GLuint);
  m_fboCount : gmap ptr nat;
  m_fboMS : gmap ptr GLuint;
  m_fbosNeedUpdate : bool;
  m_cacheTimer : Q;
  m_pick : list ptr;
  m_pickDist : Dist;
  m_pickAwaiting : bool;
  m_wasMultiPick : bool;
  m_paused : bool;
  m_computeSupported : bool;
  m_lastSize : Z * Z;
  pass_FBO : gmap ptr GLuint;
  gl : GLContext
}.

Definition M (A : Type) : Type := RenderEngine -> result (A * RenderEngine).

#[global] Instance M_ret : MRet M := fun A a st => Ok (a, st).
#[global] Instance M_bind : MBind M := fun A B f m st =>
  match m st with
  | Ok (a, st') => f a st'
  | UB => UB
  end.

Definition undefined {A} : M A := fun _ => UB.
Definition get : M RenderEngine := fun st => Ok (st, st).
Definition modify (f : RenderEngine -> RenderEngine) : M unit :=
  fun st => Ok (tt, f st).

Definition lift {A} (r : result A) : M A :=
  fun st => match r with Ok a => Ok (a, st) | UB => UB end.

(** ** std::vector operations *)

Section Vector.
Context {A : Type}.

(** [v[i]]: undefined behaviour out of range. *)
Definition vec_at (v : list A) (i : nat) : result A :=
  match nth_error v i with
  | Some x => Ok x
  | None => UB
  end.

(** [v.insert(v.begin() + i, x)]: the iterator must lie in [begin, end]. *)
Definition vec_insert (v : list A) (i : nat) (x : A) : result (list A) :=
  if (i <=? length v)%nat then Ok (firstn i v ++ x :: skipn i v) else UB.

(** [v.erase(v.begin() + i)]: the iterator must be dereferenceable. *)
Definition vec_erase (v : list A) (i : nat) : result (list A) :=
  if (i <? length v)%nat then Ok (firstn i v ++ skipn (S i) v) else UB.

(** The elements [v[0]], ..., [v[n-1]], each read by index. *)
Definition vec_prefix (v : list A) (n : nat) : result (list A) :=
  if (n <=? length v)%nat then Ok (firstn n v) else UB.

(** [v[i] = x]. *)
Definition vec_set (v : list A) (i : nat) (x : A) : result (list A) :=
  if (i <? length v)%nat then Ok (firstn i v ++ x :: skipn (S i) v) else UB.
End Vector.

(** Assignments to single members. *)

Definition set_m_items (v : list ptr) (st : RenderEngine) : RenderEngine :=
  Build_RenderEngine v (m_shaders st) (m_debugShaders st) (m_shaderSources st) (m_fbos st) (m_fboCount st) (m_fboMS st) (m_fbosNeedUpdate st) (m_cacheTimer st) (m_pick st) (m_pickDist st) (m_pickAwaiting st) (m_wasMultiPick st) (m_paused st) (m_computeSupported st) (m_lastSize st) (pass_FBO st) (gl st).
Definition set_m_shaders (v : list GLuint) (st : RenderEngine) : RenderEngine :=
  Build_RenderEngine (m_items st) v (m_debugShaders st) (m_shaderSources st) (m_fbos st) (m_fboCount st) (m_fboMS st) (m_fbosNeedUpdate st) (m_cacheTimer st) (m_pick st) (m_pickDist st) (m_pickAwaiting st) (m_wasMultiPick st) (m_paused st) (m_computeSupported st) (m_lastSize st) (pass_FBO st) (gl st).
Definition set_m_debugShaders (v : list GLuint) (st : RenderEngine) : RenderEngine :=
  Build_RenderEngine (m_items st) (m_shaders st) v (m_shaderSources st) (m_fbos st) (m_fboCount st) (m_fboMS st) (m_fbosNeedUpdate st) (m_cacheTimer st) (m_pick st) (m_pickDist st) (m_pickAwaiting st) (m_wasMultiPick st) (m_paused st) (m_computeSupported st) (m_lastSize st) (pass_FBO st) (gl st).
Definition set_m_shaderSources (v : list ShaderPack) (st : RenderEngine) : RenderEngine :=
  Build_RenderEngine (m_items st) (m_shaders st) (m_debugShaders st) v (m_fbos st) (m_fboCount st) (m_fboMS st) (m_fbosNeedUpdate st) (m_cacheTimer st) (m_pick st) (m_pickDist st) (m_pickAwaiting st) (m_wasMultiPick st) (m_paused st) (m_computeSupported st) (m_lastSize st) (pass_FBO st) (gl st).
Definition set_m_fbos (v : gmap ptr (list GLuint)) (st : RenderEngine) : RenderEngine :=
  Build_RenderEngine (m_items st) (m_shaders st) (m_debugShaders st) (m_shaderSources st) v (m_fboCount st) (m_fboMS st) (m_fbosNeedUpdate st) (m_cacheTimer st) (m_pick st) (m_pickDist st) (m_pickAwaiting st) (m_wasMultiPick st) (m_paused st) (m_computeSupported st) (m_lastSize st) (pass_FBO st) (gl st).
Definition set_m_fboCount (v : gmap ptr nat) (st : RenderEngine) : RenderEngine :=
  Build_RenderEngine (m_items st) (m_shaders st) (m_debugShaders st) (m_shaderSources st) (m_fbos st) v (m_fboMS st) (m_fbosNeedUpdate st) (m_cacheTimer st) (m_pick st) (m_pickDist st) (m_pickAwaiting st) (m_wasMultiPick st) (m_paused st) (m_computeSupported st) (m_lastSize st) (pass_FBO st) (gl st).
Definition set_m_fboMS (v : gmap ptr GLuint) (st : RenderEngine) : RenderEngine :=
  Build_RenderEngine (m_items st) (m_shaders st) (m_debugShaders st) (m_shaderSources st) (m_fbos st) (m_fboCount st) v (m_fbosNeedUpdate st) (m_cacheTimer st) (m_pick st) (m_pickDist st) (m_pickAwaiting st) (m_wasMultiPick st) (m_paused st) (m_computeSupported st) (m_lastSize st) (pass_FBO st) (gl st).
Definition set_m_fbosNeedUpdate (v : bool) (st : RenderEngine) : RenderEngine :=
  Build_RenderEngine (m_items st) (m_shaders st) (m_debugShaders st) (m_shaderSources st) (m_fbos st) (m_fboCount st) (m_fboMS st) v (m_cacheTimer st) (m_pick st) (m_pickDist st) (m_pickAwaiting st) (m_wasMultiPick st) (m_paused st) (m_computeSupported st) (m_lastSize st) (pass_FBO st) (gl st).
Definition set_m_cacheTimer (v : Q) (st : RenderEngine) : RenderEngine :=
  Build_RenderEngine (m_items st) (m_shaders st) (m_debugShaders st) (m_shaderSources st) (m_fbos st) (m_fboCount st) (m_fboMS st) (m_fbosNeedUpdate st) v (m_pick st) (m_pickDist st) (m_pickAwaiting st) (m_wasMultiPick st) (m_paused st) (m_computeSupported st) (m_lastSize st) (pass_FBO st) (gl st).
Definition set_m_pick (v : list ptr) (st : RenderEngine) : RenderEngine :=
  Build_RenderEngine (m_items st) (m_shaders st) (m_debugShaders st) (m_shaderSources st) (m_fbos st) (m_fboCount st) (m_fboMS st) (m_fbosNeedUpdate st) (m_cacheTimer st) v (m_pickDist st) (m_pickAwaiting st) (m_wasMultiPick st) (m_paused st) (m_computeSupported st) (m_lastSize st) (pass_FBO st) (gl st).
Definition set_m_pickDist (v : Dist) (st : RenderEngine) : RenderEngine :=
  Build_RenderEngine (m_items st) (m_shaders st) (m_debugShaders st) (m_shaderSources st) (m_fbos st) (m_fboCount st) (m_fboMS st) (m_fbosNeedUpdate st) (m_cacheTimer st) (m_pick st) v (m_pickAwaiting st) (m_wasMultiPick st) (m_paused st) (m_computeSupported st) (m_lastSize st) (pass_FBO st) (gl st).
Definition set_m_pickAwaiting (v : bool) (st : RenderEngine) : RenderEngine :=
  Build_RenderEngine (m_items st) (m_shaders st) (m_debugShaders st) (m_shaderSources st) (m_fbos st) (m_fboCount st) (m_fboMS st) (m_fbosNeedUpdate st) (m_cacheTimer st) (m_pick st) (m_pickDist st) v (m_wasMultiPick st) (m_paused st) (m_computeSupported st) (m_lastSize st) (pass_FBO st) (gl st).
Definition set_m_wasMultiPick (v : bool) (st : RenderEngine) : RenderEngine :=
  Build_RenderEngine (m_items st) (m_shaders st) (m_debugShaders st) (m_shaderSources st) (m_fbos st) (m_fboCount st) (m_fboMS st) (m_fbosNeedUpdate st) (m_cacheTimer st) (m_pick st) (m_pickDist st) (m_pickAwaiting st) v (m_paused st) (m_computeSupported st) (m_lastSize st) (pass_FBO st) (gl st).
Definition set_m_paused (v : bool) (st : RenderEngine) : RenderEngine :=
  Build_RenderEngine (m_items st) (m_shaders st) (m_debugShaders st) (m_shaderSources st) (m_fbos st) (m_fboCount st) (m_fboMS st) (m_fbosNeedUpdate st) (m_cacheTimer st) (m_pick st) (m_pickDist st) (m_pickAwaiting st) (m_wasMultiPick st) v (m_computeSupported st) (m_lastSize st) (pass_FBO st) (gl st).
Definition set_m_computeSupported (v : bool) (st : RenderEngine) : RenderEngine :=
  Build_RenderEngine (m_items st) (m_shaders st) (m_debugShaders st) (m_shaderSources st) (m_fbos st) (m_fboCount st) (m_fboMS st) (m_fbosNeedUpdate st) (m_cacheTimer st) (m_pick st) (m_pickDist st) (m_pickAwaiting st) (m_wasMultiPick st) (m_paused st) v (m_lastSize st) (pass_FBO st) (gl st).
Definition set_m_lastSize (v : Z * Z) (st : RenderEngine) : RenderEngine :=
  Build_RenderEngine (m_items st) (m_shaders st) (m_debugShaders st) (m_shaderSources st) (m_fbos st) (m_fboCount st) (m_fboMS st) (m_fbosNeedUpdate st) (m_cacheTimer st) (m_pick st) (m_pickDist st) (m_pickAwaiting st) (m_wasMultiPick st) (m_paused st) (m_computeSupported st) v (pass_FBO st) (gl st).
Definition set_pass_FBO (v : gmap ptr GLuint) (st : RenderEngine) : RenderEngine :=
  Build_RenderEngine (m_items st) (m_shaders st) (m_debugShaders st) (m_shaderSources st) (m_fbos st) (m_fboCount st) (m_fboMS st) (m_fbosNeedUpdate st) (m_cacheTimer st) (m_pick st) (m_pickDist st) (m_pickAwaiting st) (m_wasMultiPick st) (m_paused st) (m_computeSupported st) (m_lastSize st) v (gl st).
Definition set_gl (v : GLContext) (st : RenderEngine) : RenderEngine :=
  Build_RenderEngine (m_items st) (m_shaders st) (m_debugShaders st) (m_shaderSources st) (m_fbos st) (m_fboCount st) (m_fboMS st) (m_fbosNeedUpdate st) (m_cacheTimer st) (m_pick st) (m_pickDist st) (m_pickAwaiting st) (m_wasMultiPick st) (m_paused st) (m_computeSupported st) (m_lastSize st) (pass_FBO st) v.

(** ** OpenGL calls *)

Definition gl_fresh : M GLuint :=
  fun st =>
    let g := gl st in
    Ok (gl_next g,
        set_gl {| gl_next := gl_next g + 1;
                  gl_programs := gl_programs g;
                  gl_calls := gl_calls g |} st).

Definition gl_record (c : GLCall) : M unit :=
  modify (fun st =>
    let g := gl st in
    set_gl {| gl_next := gl_next g;
              gl_programs := gl_programs g;
              gl_calls := gl_calls g ++ [c] |} st).

Definition gl_set_programs (f : list GLuint -> list GLuint) : M unit :=
  modify (fun st =>
    let g := gl st in
    set_gl {| gl_next := gl_next g;
              gl_programs := f (gl_programs g);
              gl_calls := gl_calls g |} st).

(** [glCreateProgram()]: a fresh non-zero name, now a live program. *)
Definition glCreateProgram : M GLuint :=
  n ← gl_fresh;
  gl_set_programs (fun ps => n :: ps);;
  gl_record (CreateProgram n);;
  mret n.

(** [glDeleteProgram(p)]: the name 0 is silently ignored. *)
Definition glDeleteProgram (p : GLuint) : M unit :=
  if p =? 0 then mret tt
  else
    gl_set_programs (List.filter (fun q => negb (q =? p)));;
    gl_record (DeleteProgram p).

(** [glDeleteShader(s)]: the name 0 is silently ignored. *)
Definition glDeleteShader (s : GLuint) : M unit :=
  if s =? 0 then mret tt else gl_record (DeleteShader s).

(** [glGenFramebuffers(1, &f)]. *)
Definition glGenFramebuffers : M GLuint :=
  n ← gl_fresh;
  gl_record (GenFramebuffer n);;
  mret n.

(** [glDeleteFramebuffers(1, &f)]. *)
Definition glDeleteFramebuffers (f : GLuint) : M unit :=
  if f =? 0 then mret tt else gl_record (DeleteFramebuffer f).

(** ** Picking *)

(** [RenderEngine::Pick(float sx, float sy, bool multiPick, func)]: arms a
    pick session.  The ray itself ([m_pickOrigin], [m_pickDir]) is input to
    the intersection tests of [Memory]. *)
Definition Pick (multiPick : bool) : M unit :=
  modify (fun st =>
    set_m_wasMultiPick multiPick
      (set_m_pickDist Inf (set_m_pickAwaiting true st))).

(** The body shared, line for line, by [Pick(PipelineItem*, bool)] and
    [AddPickedItem]: scan for the item; when present, single-pick collapses
    the list to it and multi-pick leaves the list alone; when absent,
    [nullptr] clears, multi-pick appends and single-pick replaces. *)
Definition pick_scan (l : list ptr) (it : ptr) : bool :=
  existsb (fun p => p =? it) l.

(** [RenderEngine::Pick(PipelineItem* item, bool add)]. *)
Definition Pick_item (it : ptr) (add : bool) : M unit :=
  modify (fun st =>
    let l := m_pick st in
    if pick_scan l it then
      if negb add then set_m_pick [it] st else st
    else if it =? nullptr then set_m_pick [] st
    else if add then set_m_pick (l ++ [it]) st
    else set_m_pick [it] st).

(** [RenderEngine::AddPickedItem(PipelineItem* pipe, bool multiPick)]. *)
Definition AddPickedItem (pipe : ptr) (multiPick : bool) : M unit :=
  modify (fun st =>
    let l := m_pick st in
    if pick_scan l pipe then
      if negb multiPick then set_m_pick [pipe] st else st
    else if pipe =? nullptr then set_m_pick [] st
    else if multiPick then set_m_pick (l ++ [pipe]) st
    else set_m_pick [pipe] st).

Definition dist_of_hit (h : option Dist) : Dist :=
  match h with Some d => d | None => Inf end.

(** The per-triangle loop of the [Model] branch: [myDist] shrinks to each
    closer hit and the scan stops ([donetris]) at the first hit that also
    beats [m_pickDist]. *)
Fixpoint model_mesh_loop (pickDist : Dist) (tris : list (option Dist))
    (myDist : Dist) : Dist * bool :=
  match tris with
  | [] => (myDist, false)
  | None :: rest => model_mesh_loop pickDist rest myDist
  | Some triDist :: rest =>
      if Dist_ltb triDist myDist then
        if Dist_ltb triDist pickDist then (triDist, true)
        else model_mesh_loop pickDist rest triDist
      else model_mesh_loop pickDist rest myDist
  end.

Fixpoint model_loop (pickDist : Dist) (meshes : list (list (option Dist)))
    (myDist : Dist) : Dist :=
  match meshes with
  | [] => myDist
  | mesh :: rest =>
      let '(d, donetris) := model_mesh_loop pickDist mesh myDist in
      if donetris then d else model_loop pickDist rest d
  end.

(** The distance [myDist] that [m_pickItem] computes for an item. *)
Definition pick_myDist (mem : Memory) (it : ptr) (pickDist : Dist) : Dist :=
  match Type_ (item mem it) with
  | Geometry =>
      match geometryType mem (Data (item mem it)) with
      | Cube | Plane | Circle => dist_of_hit (IntersectBox mem it)
      | Triangle => dist_of_hit (IntersectTriangle mem it)
      | Sphere => intersectRaySphere mem it
      | Rectangle | ScreenQuadNDC => Inf
      end
  | Model =>
      match IntersectBox mem it with
      | Some triDist =>
          if Dist_ltb triDist pickDist
          then model_loop pickDist (modelTriangles mem it) Inf
          else triDist
      | None => Inf
      end
  | PluginItem => dist_of_hit (IntersectPipelineItem mem it)
  | _ => Inf
  end.

(** [RenderEngine::m_pickItem(PipelineItem* item, bool multiPick)]. *)
Definition m_pickItem (mem : Memory) (it : ptr) (multiPick : bool) : M unit :=
  let early :=
    match Type_ (item mem it), geometryType mem (Data (item mem it)) with
    | Geometry, Rectangle | Geometry, ScreenQuadNDC => true
    | _, _ => false
    end in
  if early then mret tt
  else
    st ← get;
    let myDist := pick_myDist mem it (m_pickDist st) in
    (* did we actually pick sth that is closer? *)
    if Dist_ltb myDist (m_pickDist st) then
      modify (set_m_pickDist myDist);;
      AddPickedItem it multiPick
    else mret tt.

(** ** The resource cache *)

Definition is_empty (s : string) : bool := (String.length s =? 0)%nat.

(** [v.resize(n)] on a vector of GL names: truncate or pad with zeros. *)
Definition vec_resize (n : nat) (v : list GLuint) : list GLuint :=
  firstn n v ++ repeat 0 (n - length v).

(** The linear scans [items[i]->Data == m_items[j]->Data]. *)
Definition found_in (mem : Memory) (d : ptr) (l : list ptr) : bool :=
  existsb (fun p => Data (item mem p) =? d) l.

Section Cache.
Variable mem : Memory.
(** [MAX_RENDER_TEXTURES], a macro of a header outside the sources. *)
Variable MAX_RENDER_TEXTURES : nat.
(** [gl::CheckShaderCompilationStatus] for a stage of a pass once its file
    is loaded, include-expanded and macro-injected. *)
Variable shaderCompiles : Stage -> ptr -> bool.
(** The same verdict for source text handed to [RecompileFromSource]. *)
Variable sourceCompiles : Stage -> string -> bool.

(** [gl::CompileShader(stage, content)] for the stage file of pass [data]. *)
Definition gl_CompileShader (stage : Stage) (data : ptr) : M GLuint :=
  n ← gl_fresh;
  gl_record (CompileShader stage data n);;
  mret n.

(** [gl::CompileShader(stage, src)] for in-memory source. *)
Definition gl_CompileSource (stage : Stage) (src : string) : M GLuint :=
  n ← gl_fresh;
  gl_record (CompileSource stage src n);;
  mret n.

(** [m_items.insert(begin + i, it)] and its companions in the parallel
    vectors. *)
Definition insert_items (i : nat) (it : ptr) : M unit :=
  st ← get; v ← lift (vec_insert (m_items st) i it); modify (set_m_items v).
Definition insert_shaders (i : nat) (p : GLuint) : M unit :=
  st ← get; v ← lift (vec_insert (m_shaders st) i p); modify (set_m_shaders v).
Definition insert_debugShaders (i : nat) (p : GLuint) : M unit :=
  st ← get; v ← lift (vec_insert (m_debugShaders st) i p);
  modify (set_m_debugShaders v).
Definition insert_shaderSources (i : nat) (p : ShaderPack) : M unit :=
  st ← get; v ← lift (vec_insert (m_shaderSources st) i p);
  modify (set_m_shaderSources v).

Definition erase_items (i : nat) : M unit :=
  st ← get; v ← lift (vec_erase (m_items st) i); modify (set_m_items v).
Definition erase_shaders (i : nat) : M unit :=
  st ← get; v ← lift (vec_erase (m_shaders st) i); modify (set_m_shaders v).
Definition erase_debugShaders (i : nat) : M unit :=
  st ← get; v ← lift (vec_erase (m_debugShaders st) i);
  modify (set_m_debugShaders v).
Definition erase_shaderSources (i : nat) : M unit :=
  st ← get; v ← lift (vec_erase (m_shaderSources st) i);
  modify (set_m_shaderSources v).

Definition read_items (i : nat) : M ptr :=
  st ← get; lift (vec_at (m_items st) i).
Definition read_shaders (i : nat) : M GLuint :=
  st ← get; lift (vec_at (m_shaders st) i).
Definition read_debugShaders (i : nat) : M GLuint :=
  st ← get; lift (vec_at (m_debugShaders st) i).
Definition read_shaderSources (i : nat) : M ShaderPack :=
  st ← get; lift (vec_at (m_shaderSources st) i).

Definition write_shaders (i : nat) (p : GLuint) : M unit :=
  st ← get; v ← lift (vec_set (m_shaders st) i p); modify (set_m_shaders v).
Definition write_debugShaders (i : nat) (p : GLuint) : M unit :=
  st ← get; v ← lift (vec_set (m_debugShaders st) i p);
  modify (set_m_debugShaders v).
Definition write_shaderSources (i : nat) (p : ShaderPack) : M unit :=
  st ← get; v ← lift (vec_set (m_shaderSources st) i p);
  modify (set_m_shaderSources v).

(** [for (int i = lo; i < lo + n; i++) body(i)] over a range fixed at loop
    entry. *)
Fixpoint for_range (lo n : nat) (body : nat -> M unit) : M unit :=
  match n with
  | O => mret tt
  | S n' => body lo;; for_range (S lo) n' body
  end.

(** The [ShaderPass] branch of "check if some item was added". *)
Definition cache_add_ShaderPass (i : nat) (it : ptr) : M unit :=
  let data := Data (item mem it) in
  let sp := shaderPass mem data in
  insert_items i it;;
  insert_shaders i 0;;
  insert_debugShaders i 0;;
  insert_shaderSources i {| VS := 0; PS := 0; GS := 0 |};;
  if is_empty (VSPath sp) || is_empty (PSPath sp) then mret tt (* continue *)
  else
    old ← read_shaderSources i;
    glDeleteShader (VS old);;
    glDeleteShader (PS old);;
    glDeleteShader (GS old);;
    (* m_fbos[data].resize(MAX_RENDER_TEXTURES) *)
    modify (fun st =>
      set_m_fbos (<[data := vec_resize MAX_RENDER_TEXTURES
                              (default [] (m_fbos st !! data))]> (m_fbos st)) st);;
    vs ← gl_CompileShader VertexStage data;
    let vsCompiled := shaderCompiles VertexStage data in
    ps ← gl_CompileShader PixelStage data;
    let psCompiled := shaderCompiles PixelStage data in
    '(gs, gsCompiled) ←
      (if GSUsed sp && negb (is_empty (GSEntry sp)) && negb (is_empty (GSPath sp))
       then g ← gl_CompileShader GeometryStage data;
            mret (g, shaderCompiles GeometryStage data)
       else mret (0, true));
    p ← read_shaders i;
    (if negb (p =? 0) then glDeleteProgram p else mret tt);;
    d ← read_debugShaders i;
    (if negb (d =? 0) then glDeleteProgram d else mret tt);;
    (if negb vsCompiled || negb psCompiled || negb gsCompiled
     then write_shaders i 0
     else
       prog ← glCreateProgram;
       write_shaders i prog;;
       dbg ← glCreateProgram;
       write_debugShaders i dbg);;
    write_shaderSources i {| VS := vs; PS := ps; GS := gs |}.

(** The [ComputePass] branch. *)
Definition cache_add_ComputePass (i : nat) (it : ptr) : M unit :=
  let data := Data (item mem it) in
  insert_items i it;;
  insert_shaders i 0;;
  insert_shaderSources i {| VS := 0; PS := 0; GS := 0 |};;
  if is_empty (Path (computePass mem data)) then mret tt (* continue *)
  else
    cs ← gl_CompileShader ComputeStage data;
    let compiled := shaderCompiles ComputeStage data in
    p ← read_shaders i;
    (if negb (p =? 0) then glDeleteProgram p else mret tt);;
    (if negb compiled then write_shaders i 0
     else prog ← glCreateProgram; write_shaders i prog);;
    write_shaderSources i {| VS := 0; PS := 0; GS := 0 |}.

(** The [AudioPass] and [PluginItem] branches: a slot with no program. *)
Definition cache_add_slot (i : nat) (it : ptr) : M unit :=
  insert_items i it;;
  insert_shaders i 0;;
  insert_shaderSources i {| VS := 0; PS := 0; GS := 0 |}.

(** One round of "check if some item was added". *)
Definition cache_add (items : list ptr) (i : nat) : M unit :=
  it ← lift (vec_at items i);
  st ← get;
  if found_in mem (Data (item mem it)) (m_items st) then mret tt
  else
    match Type_ (item mem it) with
    | ShaderPass => cache_add_ShaderPass i it
    | ComputePass =>
        if m_computeSupported st then cache_add_ComputePass i it else mret tt
    | AudioPass => cache_add_slot i it
    | PluginItem => cache_add_slot i it
    | _ => mret tt
    end.

(** "check if some item was removed": [i] advances every round and the
    vector never grows, so [fuel = m_items.size()] at loop entry covers
    every round. *)
Fixpoint cache_remove (items : list ptr) (fuel i : nat) : M unit :=
  match fuel with
  | O => mret tt
  | S fuel' =>
      st ← get;
      if (i <? length (m_items st))%nat then
        it ← read_items i;
        (if found_in mem (Data (item mem it)) items then mret tt
         else
           p ← read_shaders i;
           glDeleteProgram p;;
           d ← read_debugShaders i;
           glDeleteProgram d;;
           (match Type_ (item mem it) with
            | ShaderPass =>
                modify (fun st =>
                  set_m_fbos (delete (Data (item mem it)) (m_fbos st)) st)
            | _ => mret tt
            end);;
           erase_items i;;
           erase_shaders i;;
           erase_debugShaders i;;
           erase_shaderSources i);;
        cache_remove items fuel' (S i)
      else mret tt
  end.

(** The move of "check if the order of the items changed". *)
Definition cache_move (items : list ptr) (i j : nat) : M unit :=
  itj ← lift (vec_at items j);
  mi ← read_items i;
  if Data (item mem itj) =? Data (item mem mi) then
    let dest := if (i <? j)%nat then (j - 1)%nat else j in
    erase_items i;;
    insert_items dest itj;;
    sCopy ← read_shaders i;
    sdbgCopy ← read_debugShaders i;
    ssrcCopy ← read_shaderSources i;
    erase_shaders i;;
    insert_shaders dest sCopy;;
    erase_debugShaders i;;
    insert_debugShaders dest sdbgCopy;;
    erase_shaderSources i;;
    insert_shaderSources dest ssrcCopy
  else mret tt.

Definition cache_reorder (items : list ptr) (i : nat) : M unit :=
  iti ← lift (vec_at items i);
  mi ← read_items i;
  (* two items at the same position dont match *)
  if negb (Data (item mem iti) =? Data (item mem mi)) then
    for_range 0 (length items) (cache_move items i)
  else mret tt.

(** [GetElapsedTime() > 0.5f] on a clock read at [now]; [m_cacheTimer]
    holds the time of its last [Restart()]. *)
Definition timer_expired (now : Q) (st : RenderEngine) : bool :=
  negb (Qle_bool (now - m_cacheTimer st) (1 # 2)).

(** The three scans of [m_cache] that follow the debounce test. *)
Definition cache_reconcile (items : list ptr) : M unit :=
  (* check if some item was added *)
  for_range 0 (length items) (cache_add items);;
  (* check if some item was removed *)
  st1 ← get;
  cache_remove items (length (m_items st1)) 0;;
  (* check if the order of the items changed *)
  st2 ← get;
  for_range 0 (length (m_items st2)) (cache_reorder items).

(** [RenderEngine::m_cache()], with [items = m_pipeline->GetList()]. *)
Definition m_cache (items : list ptr) (now : Q) : M unit :=
  st ← get;
  if (length (m_items st) =? length items)%nat then
    if timer_expired now st then
      modify (set_m_cacheTimer now);; (* Restart() *)
      cache_reconcile items
    else mret tt (* return *)
  else cache_reconcile items.

(** [RenderEngine::FlushCache()]. *)
Definition FlushCache : M unit :=
  st ← get;
  for_range 0 (length (m_shaders st)) (fun i =>
    src ← read_shaderSources i;
    glDeleteShader (VS src);;
    glDeleteShader (PS src);;
    glDeleteShader (GS src);;
    p ← read_shaders i;
    glDeleteProgram p);;
  modify (fun st =>
    set_m_lastSize (1, 1)
      (set_m_fbosNeedUpdate true
        (set_m_shaderSources []
          (set_m_shaders []
            (set_m_items []
              (set_m_fboCount ∅
                (set_m_fbos ∅ st))))))).
End Cache.

(** ** Framebuffers and the frame executor *)

(** What one frame issues, in order.  Binding, clearing and viewport calls
    change no engine member and are left out. *)
Inductive FrameEvent :=
| DrawItem (i : nat) (pass : ptr) (it : ptr) (debugID : option Z)
| BindRenderState (i : nat) (pass : ptr) (it : ptr)
| PluginDraw (i : nat) (pass : ptr) (it : ptr)
| DispatchCompute (i : nat) (pass : ptr)
| RenderAudio (i : nat) (pass : ptr)
| ExecutePlugin (i : nat) (pass : ptr)
| PickHandle (picked : ptr).

Definition INT_MAX : Z := 2147483647.
Definition DEBUG_ID_START : Z := 1.

(** [debugID++] on an [int]: signed overflow is undefined. *)
Definition int_incr (n : Z) : result Z :=
  if n <? INT_MAX then Ok (n + 1) else UB.

Definition is_drawable (t : ItemType) : bool :=
  match t with Geometry | Model => true | _ => false end.

Section Frame.
Variable mem : Memory.
Variable MAX_RENDER_TEXTURES : nat.
Variable shaderCompiles : Stage -> ptr -> bool.
Variable sourceCompiles : Stage -> string -> bool.

(** [RenderEngine::m_updatePassFBO(pass)]; [pass->FBO] is [pass_FBO !! pass]
    (0 until first generated).  The depth-buffer lookup in the object
    registry touches no engine member. *)
Definition m_updatePassFBO (pass : ptr) : M unit :=
  let sp := shaderPass mem pass in
  st ← get;
  let snapshot := default [] (m_fbos st !! pass) in
  (* both loops read [RenderTextures[i]] and [m_fbos[pass][i]] for every
     [i < RTCount] *)
  rts ← lift (vec_prefix (RenderTextures sp) (RTCount sp));
  olds ← lift (vec_prefix snapshot (RTCount sp));
  let changed := negb (forallb (fun p => fst p =? snd p) (combine rts olds)) in
  modify (set_m_fbos (<[pass := rts ++ skipn (RTCount sp) snapshot]> (m_fbos st)));;
  let changed :=
    changed || negb (default 0%nat (m_fboCount st !! pass) =? RTCount sp)%nat in
  modify (set_m_fboCount (<[pass := RTCount sp]> (m_fboCount st)));;
  if negb changed && negb (m_fbosNeedUpdate st) then mret tt
  else
    let fbo := default 0 (pass_FBO st !! pass) in
    (if negb (fbo =? 0) then
       glDeleteFramebuffers fbo;;
       glDeleteFramebuffers (default 0 (m_fboMS st !! pass))
     else mret tt);;
    f ← glGenFramebuffers;
    modify (fun st => set_pass_FBO (<[pass := f]> (pass_FBO st)) st);;
    fms ← glGenFramebuffers;
    modify (fun st => set_m_fboMS (<[pass := fms]> (m_fboMS st)) st);;
    modify (set_m_fbosNeedUpdate false).

(** The draw loop of one shader pass, [for (j < data->Items.size())]:
    each [Geometry] or [Model] child is offered to a pending pick, takes
    the next [debugID] in a debug render, and is drawn. *)
Fixpoint render_items (isDebug : bool) (i : nat) (pass : ptr)
    (children : list ptr) (debugID : Z) : M (Z * list FrameEvent) :=
  match children with
  | [] => mret (debugID, [])
  | c :: rest =>
      let t := Type_ (item mem c) in
      '(dbg, debugID') ←
        (if is_drawable t then
           st ← get;
           (if m_pickAwaiting st then m_pickItem mem c (m_wasMultiPick st)
            else mret tt);;
           if isDebug then
             next ← lift (int_incr debugID);
             mret (Some debugID, next)
           else mret (None, debugID)
         else mret (None, debugID));
      ev ←
        match t with
        | Geometry | Model => mret [DrawItem i pass c dbg]
        | RenderState => mret [BindRenderState i pass c]
        | PluginItem =>
            st ← get;
            (if m_pickAwaiting st && pluginPickable mem (Data (item mem c))
             then m_pickItem mem c (m_wasMultiPick st)
             else mret tt);;
            mret [PluginDraw i pass c]
        | _ => mret []
        end;
      '(d, evs) ← render_items isDebug i pass rest debugID';
      mret (d, ev ++ evs)
  end.

(** One round of [for (int i = 0; i < m_items.size(); i++)] in [Render]. *)
Definition render_pass (isDebug : bool) (i : nat) (debugID : Z)
    : M (Z * list FrameEvent) :=
  it ← read_items i;
  match Type_ (item mem it) with
  | ShaderPass =>
      let data := Data (item mem it) in
      let sp := shaderPass mem data in
      if negb (Active sp) || (length (Items sp) =? 0)%nat
         || (RTCount sp =? 0)%nat || (isDebug && GSUsed sp)
      then mret (debugID, []) (* continue *)
      else
        (* create/update fbo if necessary *)
        m_updatePassFBO data;;
        p ← read_shaders i;
        if p =? 0 then mret (debugID, []) (* continue *)
        else
          (if isDebug then read_debugShaders i;; mret tt else mret tt);;
          render_items isDebug i it (Items sp) debugID
  | ComputePass =>
      st ← get;
      if negb isDebug && negb (m_paused st) && m_computeSupported st then
        p ← read_shaders i;
        if p =? 0 then mret (debugID, []) (* continue *)
        else mret (debugID, [DispatchCompute i it])
      else mret (debugID, [])
  | AudioPass =>
      if negb isDebug then mret (debugID, [RenderAudio i it])
      else mret (debugID, [])
  | PluginItem =>
      if negb isDebug then mret (debugID, [ExecutePlugin i it])
      else mret (debugID, [])
  | _ => mret (debugID, [])
  end.

Fixpoint render_loop (isDebug : bool) (lo n : nat) (debugID : Z)
    : M (list FrameEvent) :=
  match n with
  | O => mret []
  | S n' =>
      '(d, evs) ← render_pass isDebug lo debugID;
      rest ← render_loop isDebug (S lo) n' d;
      mret (evs ++ rest)
  end.

(** [RenderEngine::Render(int width, int height, bool isDebug)] with the
    pipeline list [items] and the clock reading [now] that [m_cache] sees.
    When a pick was awaiting, the frame ends with the value handed to the
    pick handle. *)
Definition Render (width height : Z) (isDebug : bool)
    (items : list ptr) (now : Q) : M (list FrameEvent) :=
  st ← get;
  (if negb (fst (m_lastSize st) =? width) || negb (snd (m_lastSize st) =? height)
   then modify (set_m_lastSize (width, height))
   else mret tt);;
  (* cache elements *)
  m_cache mem MAX_RENDER_TEXTURES shaderCompiles items now;;
  st ← get;
  evs ← render_loop isDebug 0 (length (m_items st)) DEBUG_ID_START;
  st ← get;
  if m_pickAwaiting st then
    (if Dist_is_inf (m_pickDist st) then modify (set_m_pick []) else mret tt);;
    st ← get;
    modify (set_m_pickAwaiting false);;
    mret (evs ++ [PickHandle (List.last (m_pick st) nullptr)])
  else mret evs.

(** [Render()] and [Render(true)]: the last size again. *)
Definition Render_again (isDebug : bool) (items : list ptr) (now : Q)
    : M (list FrameEvent) :=
  st ← get;
  Render (fst (m_lastSize st)) (snd (m_lastSize st)) isDebug items now.



End Frame.

(** ** Hot reloading *)

Section Recompilation.
Variable mem : Memory.
Variable MAX_RENDER_TEXTURES : nat.
Variable shaderCompiles : Stage -> ptr -> bool.
Variable sourceCompiles : Stage -> string -> bool.

(** The [ShaderPass] branch of [Recompile]. *)
Definition recompile_ShaderPass (i : nat) (it : ptr) : M unit :=
  let data := Data (item mem it) in
  let sp := shaderPass mem data in
  old ← read_shaderSources i;
  glDeleteShader (VS old);;
  glDeleteShader (PS old);;
  glDeleteShader (GS old);;
  ps ← gl_CompileShader PixelStage data;
  let psCompiled := shaderCompiles PixelStage data in
  vs ← gl_CompileShader VertexStage data;
  let vsCompiled := shaderCompiles VertexStage data in
  '(gs, gsCompiled) ←
    (if GSUsed sp && negb (is_empty (GSPath sp)) && negb (is_empty (GSEntry sp))
     then g ← gl_CompileShader GeometryStage data;
          mret (g, shaderCompiles GeometryStage data)
     else mret (0, true));
  p ← read_shaders i;
  (if negb (p =? 0) then glDeleteProgram p else mret tt);;
  (if negb vsCompiled || negb psCompiled || negb gsCompiled
   then write_shaders i 0
   else prog ← glCreateProgram; write_shaders i prog);;
  write_shaderSources i {| VS := vs; PS := ps; GS := gs |}.

(** The [ComputePass] branch of [Recompile]. *)
Definition recompile_ComputePass (i : nat) (it : ptr) : M unit :=
  let data := Data (item mem it) in
  cs ← gl_CompileShader ComputeStage data;
  let compiled := shaderCompiles ComputeStage data in
  p ← read_shaders i;
  (if negb (p =? 0) then glDeleteProgram p else mret tt);;
  (if negb compiled then write_shaders i 0
   else prog ← glCreateProgram; write_shaders i prog);;
  glDeleteShader cs.

(** One round of the loop of [Recompile(name)]; audio streams and plugin
    items recompile outside the engine. *)
Definition recompile_at (name : string) (i : nat) : M unit :=
  it ← read_items i;
  if String.eqb (Name (item mem it)) name then
    match Type_ (item mem it) with
    | ShaderPass => recompile_ShaderPass i it
    | ComputePass =>
        st ← get;
        if m_computeSupported st then recompile_ComputePass i it else mret tt
    | _ => mret tt
    end
  else mret tt.

Definition Recompile_loop (name : string) : M unit :=
  st ← get;
  for_range 0 (length (m_items st)) (recompile_at name).

(** [RenderEngine::Recompile(const char* name)]. *)
Definition Recompile (name : string) (items : list ptr) (now : Q)
    : M (list FrameEvent) :=
  Recompile_loop name;;
  Render_again mem MAX_RENDER_TEXTURES shaderCompiles false items now.

(** The [ShaderPass] branch of [RecompileFromSource]. *)
Definition recompileSource_ShaderPass (i : nat) (it : ptr)
    (vssrc pssrc gssrc : string) : M unit :=
  let sp := shaderPass mem (Data (item mem it)) in
  psCompiled ←
    (if negb (is_empty pssrc) then
       ps ← gl_CompileSource PixelStage pssrc;
       old ← read_shaderSources i;
       glDeleteShader (PS old);;
       write_shaderSources i {| VS := VS old; PS := ps; GS := GS old |};;
       mret (sourceCompiles PixelStage pssrc)
     else mret true);
  vsCompiled ←
    (if negb (is_empty vssrc) then
       vs ← gl_CompileSource VertexStage vssrc;
       old ← read_shaderSources i;
       glDeleteShader (VS old);;
       write_shaderSources i {| VS := vs; PS := PS old; GS := GS old |};;
       mret (sourceCompiles VertexStage vssrc)
     else mret true);
  gsCompiled ←
    (if negb (is_empty gssrc) then
       old ← read_shaderSources i;
       glDeleteShader (GS old);;
       if GSUsed sp && negb (is_empty (GSPath sp)) && negb (is_empty (GSEntry sp))
       then
         gs ← gl_CompileSource GeometryStage gssrc;
         write_shaderSources i {| VS := VS old; PS := PS old; GS := gs |};;
         mret (sourceCompiles GeometryStage gssrc)
       else mret true
     else mret true);
  p ← read_shaders i;
  (if negb (p =? 0) then glDeleteProgram p else mret tt);;
  if negb vsCompiled || negb psCompiled || negb gsCompiled
  then write_shaders i 0
  else prog ← glCreateProgram; write_shaders i prog.

(** The [ComputePass] branch of [RecompileFromSource]. *)
Definition recompileSource_ComputePass (i : nat) (vssrc : string) : M unit :=
  '(cs, compiled) ←
    (if negb (is_empty vssrc) then
       c ← gl_CompileSource ComputeStage vssrc;
       mret (c, sourceCompiles ComputeStage vssrc)
     else mret (0, false));
  p ← read_shaders i;
  (if negb (p =? 0) then glDeleteProgram p else mret tt);;
  (if negb compiled then write_shaders i 0
   else prog ← glCreateProgram; write_shaders i prog);;
  glDeleteShader cs.

Definition recompileSource_at (name vssrc pssrc gssrc : string) (i : nat)
    : M unit :=
  it ← read_items i;
  if String.eqb (Name (item mem it)) name then
    match Type_ (item mem it) with
    | ShaderPass => recompileSource_ShaderPass i it vssrc pssrc gssrc
    | ComputePass =>
        st ← get;
        if m_computeSupported st then recompileSource_ComputePass i vssrc
        else mret tt
    | _ => mret tt
    end
  else mret tt.

Definition RecompileFromSource_loop (name vssrc pssrc gssrc : string)
    : M unit :=
  st ← get;
  for_range 0 (length (m_items st)) (recompileSource_at name vssrc pssrc gssrc).

(** [RenderEngine::RecompileFromSource(name, vssrc, pssrc, gssrc)]. *)
Definition RecompileFromSource (name vssrc pssrc gssrc : string)
    (items : list ptr) (now : Q) : M (list FrameEvent) :=
  RecompileFromSource_loop name vssrc pssrc gssrc;;
  Render_again mem MAX_RENDER_TEXTURES shaderCompiles false items now.
End Recompilation.

(** ** The shader preprocessor *)

Module Preprocessor.

(** [std::string] as its characters.  Positions are [size_t]: [Some i] is
    the index [i] and [None] is [std::string::npos], the largest [size_t].
    A character count is [Some n], or [None] when the subtraction that
    produced it wrapped to at least the length of the string ("to the
    end"). *)
Definition cstring := list ascii.
Definition size_t := option nat.
Definition npos : size_t := None.

Definition str (s : string) : cstring := list_ascii_of_string s.
Definition newline : ascii := "010"%char.
Definition dquote : ascii := "034"%char.

Inductive outcome (A : Type) : Type :=
| Done (a : A)
| Crash        (* an uncaught exception or undefined behaviour *)
| OutOfFuel.
Arguments Done {A} a.
Arguments Crash {A}.
Arguments OutOfFuel {A}.

(** [p + 1] on a [size_t]: [npos + 1] wraps to 0. *)
Definition succ_wrap (p : size_t) : nat :=
  match p with Some i => S i | None => 0%nat end.

Fixpoint starts_with (pat s : cstring) : bool :=
  match pat, s with
  | [], _ => true
  | _ :: _, [] => false
  | a :: pat', b :: s' => Ascii.eqb a b && starts_with pat' s'
  end.

(** Search in [s], whose first character has index [i]. *)
Fixpoint find_here (pat s : cstring) (i : nat) : size_t :=
  if starts_with pat s then Some i
  else match s with
       | [] => None
       | _ :: s' => find_here pat s' (S i)
       end.

(** [s.find(pat, pos)]. *)
Definition find (s pat : cstring) (pos : nat) : size_t :=
  if (pos <=? length s)%nat then find_here pat (skipn pos s) pos else None.

Definition mem_char (c : ascii) (chars : cstring) : bool :=
  existsb (Ascii.eqb c) chars.

Fixpoint find_first_of_here (chars s : cstring) (i : nat) : size_t :=
  match s with
  | [] => None
  | c :: s' =>
      if mem_char c chars then Some i else find_first_of_here chars s' (S i)
  end.

(** [s.find_first_of(chars, pos)]: the first position at or after [pos]
    holding any one of the characters of [chars]. *)
Definition find_first_of (s chars : cstring) (pos : nat) : size_t :=
  find_first_of_here chars (skipn pos s) pos.

(** [s.erase(pos, n)]. *)
Definition erase (s : cstring) (pos : nat) (n : option nat) : outcome cstring :=
  if (pos <=? length s)%nat then
    match n with
    | Some n => Done (firstn pos s ++ skipn (pos + n) s)
    | None => Done (firstn pos s)
    end
  else Crash.

(** [s.insert(pos, t)]. *)
Definition insert (s : cstring) (pos : nat) (t : cstring) : outcome cstring :=
  if (pos <=? length s)%nat then Done (firstn pos s ++ t ++ skipn pos s)
  else Crash.

(** [s.substr(pos, n)]. *)
Definition substr (s : cstring) (pos : nat) (n : option nat) : outcome cstring :=
  if (pos <=? length s)%nat then
    match n with
    | Some n => Done (firstn n (skipn pos s))
    | None => Done (skipn pos s)
    end
  else Crash.

(** [std::count(s.begin(), s.end(), c)]. *)
Definition count_char (c : ascii) (s : cstring) : nat :=
  length (List.filter (Ascii.eqb c) s).

(** ** Macro injection *)

Record ShaderMacro := {
  Active : bool;
  Name : cstring;
  Value : cstring
}.

(** The text [strMacro] built from the active macros. *)
Fixpoint macro_text (macros : list ShaderMacro) : cstring :=
  match macros with
  | [] => []
  | m :: rest =>
      if negb (Active m) then macro_text rest
      else str "#define " ++ Name m ++ str " " ++ Value m ++ [newline]
           ++ macro_text rest
  end.

(** [RenderEngine::m_applyMacros(src, pass)], one body for the three
    overloads. *)
Definition m_applyMacros (src : cstring) (macros : list ShaderMacro)
    : outcome cstring :=
  let verLoc := find_first_of src (str "#version") 0 in
  let lineLoc := succ_wrap (find_first_of src [newline] (succ_wrap verLoc)) in
  let strMacro := macro_text macros in
  if (0 <? length strMacro)%nat then insert src lineLoc strMacro
  else Done src.

(** ** Include expansion *)

(** The text of the diagnostic added to the message stack. *)
Definition recursive_include_msg : string := "Recursive #include detected".

(** [quoteEnd - quotePos - 1] as the count handed to [substr]: with both
    positions found it is the length between the quotes; [npos - q - 1]
    exceeds every length; [e - npos - 1] wraps to [e]; and
    [npos - npos - 1] wraps to [npos]. *)
Definition name_count (quotePos quoteEnd : size_t) : option nat :=
  match quotePos, quoteEnd with
  | Some q, Some e => Some (e - q - 1)%nat
  | Some _, None => None
  | None, Some e => Some e
  | None, None => None
  end.

(** [src.find_first_of('\n', incLoc) - incLoc] as the count handed to
    [erase]: [npos - incLoc] exceeds every length. *)
Definition line_count (lineEnd : size_t) (incLoc : nat) : option nat :=
  match lineEnd with
  | Some e => Some (e - incLoc)%nat
  | None => None
  end.

Section IncludeCheck.
(** [Settings::Instance().Project.IncludePaths]. *)
Variable IncludePaths : list cstring.
(** The project's files, by path: [FileExists] and [LoadProjectFile]. *)
Variable files : gmap cstring cstring.

Definition FileExists (path : cstring) : bool :=
  match files !! path with Some _ => true | None => false end.
Definition LoadProjectFile (path : cstring) : cstring :=
  default [] (files !! path).

Definition in_stack (includeStack : list cstring) (ipath : cstring) : bool :=
  existsb (fun p => bool_decide (p = ipath)) includeStack.

(** What one call works on: the text, its copy of the include stack, the
    [lineBias] reference and the message stack. *)
Record Work := {
  src : cstring;
  includeStack : list cstring;
  lineBias : Z;
  msgs : list string
}.

(** [for (int i = 0; i < paths.size(); i++)] for the directive at
    [incLoc]; [recurse] is the nested [m_includeCheck] call, given the
    loaded file, the stack, [lineBias] and the messages. *)
Fixpoint include_paths
    (recurse : cstring -> list cstring -> Z -> list string ->
               outcome (cstring * Z * list string))
    (fileName : cstring) (incLoc : nat) (paths : list cstring) (w : Work)
    : outcome Work :=
  match paths with
  | [] => Done w
  | path :: rest =>
      match List.last (map Some path) None with
      | None => Crash (* ipath[ipath.size() - 1] on an empty string *)
      | Some last_ =>
          let ipath :=
            (if negb (Ascii.eqb last_ "\"%char) && negb (Ascii.eqb last_ "/"%char)
             then path ++ str "/" else path) ++ fileName in
          match erase (src w) incLoc
                  (line_count (find_first_of (src w) [newline] incLoc) incLoc) with
          | Done src1 =>
              let msgs1 :=
                if in_stack (includeStack w) ipath
                then msgs w ++ [recursive_include_msg] else msgs w in
              if FileExists ipath && negb (in_stack (includeStack w) ipath)
              then
                let stack1 := includeStack w ++ [ipath] in
                let incFileSrc := LoadProjectFile ipath in
                let bias1 := Z.of_nat (count_char newline incFileSrc) in
                match recurse incFileSrc stack1 bias1 msgs1 with
                | Done (expanded, bias2, msgs2) =>
                    match insert src1 incLoc expanded with
                    | Done src2 =>
                        Done {| src := src2; includeStack := stack1;
                                lineBias := bias2; msgs := msgs2 |} (* break *)
                    | Crash => Crash
                    | OutOfFuel => OutOfFuel
                    end
                | Crash => Crash
                | OutOfFuel => OutOfFuel
                end
              else
                include_paths recurse fileName incLoc rest
                  {| src := src1; includeStack := includeStack w;
                     lineBias := lineBias w; msgs := msgs1 |}
          | Crash => Crash
          | OutOfFuel => OutOfFuel
          end
      end
  end.

Definition isAfterNewline (s : cstring) (incLoc : nat) : bool :=
  match incLoc with
  | O => true
  | S i => match nth_error s i with
           | Some c => Ascii.eqb c newline
           | None => false
           end
  end.

(** [while (incLoc != std::string::npos)], one unit of fuel per round and
    per nested call. *)
Fixpoint include_loop (fuel : nat) (incLoc : size_t) (w : Work)
    : outcome Work :=
  match incLoc with
  | None => Done w
  | Some loc =>
      match fuel with
      | O => OutOfFuel
      | S fuel' =>
          if negb (isAfterNewline (src w) loc) then
            include_loop fuel' (find (src w) (str "#include") (S loc)) w
          else
            let quotePos := find_first_of (src w) [dquote; "<"%char] loc in
            let quoteEnd := find_first_of (src w) [dquote; ">"%char] (succ_wrap quotePos) in
            match substr (src w) (succ_wrap quotePos) (name_count quotePos quoteEnd) with
            | Done fileName =>
                let recurse s stack bias ms :=
                  match include_loop fuel' (find s (str "#include") 0)
                          {| src := s; includeStack := stack;
                             lineBias := bias; msgs := ms |} with
                  | Done w' => Done (src w', lineBias w', msgs w')
                  | Crash => Crash
                  | OutOfFuel => OutOfFuel
                  end in
                match include_paths recurse fileName loc
                        (IncludePaths ++ [str "."]) w with
                | Done w' =>
                    include_loop fuel' (find (src w') (str "#include") (S loc)) w'
                | Crash => Crash
                | OutOfFuel => OutOfFuel
                end
            | Crash => Crash
            | OutOfFuel => OutOfFuel
            end
      end
  end.

(** [RenderEngine::m_includeCheck(src, includeStack, lineBias)]: the
    expanded text, the final [lineBias] and the message stack. *)
Definition m_includeCheck (fuel : nat) (s : cstring)
    (stack : list cstring) (bias : Z) (ms : list string)
    : outcome (cstring * Z * list string) :=
  match include_loop fuel (find s (str "#include") 0)
          {| src := s; includeStack := stack; lineBias := bias; msgs := ms |} with
  | Done w' => Done (src w', lineBias w', msgs w')
  | Crash => Crash
  | OutOfFuel => OutOfFuel
  end.
End IncludeCheck.

End Preprocessor.

(** ** Sequences of pick operations *)

Inductive PickOp :=
| OpPick (multiPick : bool)                 (* Pick(sx, sy, multiPick, func) *)
| OpPickItem (it : ptr) (add : bool)        (* Pick(item, add) *)
| OpAddPicked (pipe : ptr) (multiPick : bool) (* AddPickedItem(pipe, multiPick) *)
| OpTest (it : ptr) (multiPick : bool).     (* m_pickItem(item, multiPick) *)

Definition run_PickOp (mem : Memory) (op : PickOp) : M unit :=
  match op with
  | OpPick multiPick => Pick multiPick
  | OpPickItem it add => Pick_item it add
  | OpAddPicked pipe multiPick => AddPickedItem pipe multiPick
  | OpTest it multiPick => m_pickItem mem it multiPick
  end.

Fixpoint run_PickOps (mem : Memory) (ops : list PickOp) : M unit :=
  match ops with
  | [] => mret tt
  | op :: rest => run_PickOp mem op;; run_PickOps mem rest
  end.

(** ** Construction *)

(** [RenderEngine::RenderEngine(...)]: empty cache lists, no pick pending,
    and the three debug fragment shaders compiled.  [m_pickDist] is left
    uninitialised by the constructor and written by [Pick] before any read;
    [now] is the clock reading at which [m_cacheTimer] starts. *)
Definition RenderEngine_new (now : Q) : RenderEngine := {|
  m_items := [];
  m_shaders := [];
  m_debugShaders := [];
  m_shaderSources := [];
  m_fbos := ∅;
  m_fboCount := ∅;
  m_fboMS := ∅;
  m_fbosNeedUpdate := false;
  m_cacheTimer := now;
  m_pick := [];
  m_pickDist := Inf;
  m_pickAwaiting := false;
  m_wasMultiPick := false;
  m_paused := false;
  m_computeSupported := true;
  m_lastSize := (0, 0);
  pass_FBO := ∅;
  gl := {| gl_next := 4;
           gl_programs := [];
           gl_calls := [CompileSource PixelStage "PixelDebugShaderCode" 1;
                        CompileSource PixelStage "PixelDebugVertexShaderCode" 2;
                        CompileSource PixelStage "PixelDebugInstanceShaderCode" 3] |}
|}.

(** ** A small project used to exercise the model

    Two shader passes, a compute pass and an audio pass.  Pass 1 draws a
    cube, binds a render state and draws a model; pass 2 draws a second
    cube, nearer to the camera than the first; item 22 is a third cube at
    the same distance as the second. *)
Module Scene.

Definition header (p : ptr) : PipelineItem :=
  match p with
  | 1 => {| Name := "Simple"; Type_ := ShaderPass; Data := 101 |}
  | 2 => {| Name := "Post"; Type_ := ShaderPass; Data := 102 |}
  | 3 => {| Name := "Particles"; Type_ := ComputePass; Data := 103 |}
  | 4 => {| Name := "Sound"; Type_ := AudioPass; Data := 104 |}
  | 5 => {| Name := "Blur"; Type_ := ShaderPass; Data := 105 |}
  | 6 => {| Name := "Tone"; Type_ := ShaderPass; Data := 106 |}
  | 11 => {| Name := "Box"; Type_ := Geometry; Data := 111 |}
  | 12 => {| Name := "State"; Type_ := RenderState; Data := 112 |}
  | 13 => {| Name := "Teapot"; Type_ := Model; Data := 113 |}
  | 21 => {| Name := "Near"; Type_ := Geometry; Data := 121 |}
  | 22 => {| Name := "Twin"; Type_ := Geometry; Data := 122 |}
  | _ => {| Name := ""; Type_ := RenderState; Data := 0 |}
  end.

Definition pass (d : ptr) : ShaderPassData :=
  {| Active := true;
     Items := match d with 101 => [11; 12; 13] | 102 => [21] | _ => [11] end;
     RTCount := 1;
     RenderTextures := [7];
     GSUsed := false;
     VSPath := "vs.glsl";
     PSPath := "ps.glsl";
     GSPath := "";
     GSEntry := "" |}.

Definition mem : Memory := {|
  item := header;
  shaderPass := pass;
  computePass := fun _ => {| Path := "cs.glsl" |};
  geometryType := fun _ => Cube;
  pluginPickable := fun _ => false;
  IntersectBox := fun p =>
    match p with
    | 11 => Some (Fin (5 # 1))
    | 21 => Some (Fin (2 # 1))
    | 22 => Some (Fin (4 # 2))
    | _ => None
    end;
  IntersectTriangle := fun _ => None;
  intersectRaySphere := fun _ => Inf;
  modelTriangles := fun _ => [];
  IntersectPipelineItem := fun _ => None
|}.

(** Every stage compiles. *)
Definition compiles : Stage -> ptr -> bool := fun _ _ => true.
(** The pixel stage of pass 1 does not. *)
Definition broken : Stage -> ptr -> bool :=
  fun stage d =>
    match stage, d with
    | PixelStage, 101 => false
    | _, _ => true
    end.
Definition source_compiles : Stage -> string -> bool := fun _ _ => true.

Definition MAX_RENDER_TEXTURES : nat := 16.

(** A fresh engine in which both cubes are selected. *)
Definition picked : RenderEngine := set_m_pick [11; 21] (RenderEngine_new 0).

(** The engine after its first frame has cached the pipeline [1; 2]. *)
Definition cached : RenderEngine :=
  Eval vm_compute in
  match m_cache mem MAX_RENDER_TEXTURES compiles [1; 2] 0 (RenderEngine_new 0) with
  | Ok (_, st) => st
  | UB => RenderEngine_new 0
  end.


(** [Recompile("Simple")] on the cached engine when the pixel stage of
    pass 1 no longer compiles, and what it returns. *)
Definition recompile_result : list FrameEvent * RenderEngine :=
  Eval vm_compute in
  match Recompile mem MAX_RENDER_TEXTURES broken "Simple" [1; 2] (1 # 4) cached with
  | Ok r => r
  | UB => ([], cached)
  end.

(** The engine after its first frame has cached the four shader passes
    [1; 2; 5; 6]. *)
Definition four : RenderEngine :=
  Eval vm_compute in
  match m_cache mem MAX_RENDER_TEXTURES compiles [1; 2; 5; 6] 0 (RenderEngine_new 0) with
  | Ok (_, st) => st
  | UB => RenderEngine_new 0
  end.

(** A fresh engine with a pick armed by [Pick(sx, sy, multiPick, func)]. *)
Definition armed (multiPick : bool) : RenderEngine :=
  set_m_wasMultiPick multiPick
    (set_m_pickDist Inf (set_m_pickAwaiting true (RenderEngine_new 0))).

End Scene.

(** ** Axis-aligned boxes

    A [Geometry] item of type [Cube]: [m_pickItem] tests it with
    [ray::IntersectBox]. *)
Definition is_box (mem : Memory) (it : ptr) : Prop :=
  Type_ (item mem it) = Geometry /\ geometryType mem (Data (item mem it)) = Cube.

(** ** Views of the engine used in specifications *)

(** The cache lists the frame loop and the ID decoder index. *)
Definition cache_view (st : RenderEngine)
    : list ptr * list GLuint * list GLuint :=
  (m_items st, m_shaders st, m_debugShaders st).

(** A computation that, when it succeeds, leaves the cache lists alone. *)
Definition keeps {A} (m : M A) : Prop :=
  forall st a st', m st = Ok (a, st') -> cache_view st' = cache_view st.


(** A computation that, when it succeeds, leaves the cache lists and the
    compute-support flag alone and only appends to the log of GL calls. *)
Definition quiet {A} (m : M A) : Prop :=
  forall st a st', m st = Ok (a, st') ->
    cache_view st' = cache_view st /\
    m_computeSupported st' = m_computeSupported st /\
    exists calls, gl_calls (gl st') = gl_calls (gl st) ++ calls.

(** ** Compilation failures *)

(** The geometry stage of a shader pass is compiled at all. *)
Definition gs_compiled (sp : ShaderPassData) : Prop :=
  GSUsed sp = true /\ is_empty (GSPath sp) = false /\ is_empty (GSEntry sp) = false.

(** Some stage of the shader pass behind [data] fails to compile from its
    file. *)
Definition stage_fails (mem : Memory) (shaderCompiles : Stage -> ptr -> bool)
    (data : ptr) : Prop :=
  shaderCompiles VertexStage data = false \/
  shaderCompiles PixelStage data = false \/
  (gs_compiled (shaderPass mem data) /\ shaderCompiles GeometryStage data = false).

(** Some stage handed to [RecompileFromSource] fails to compile. *)
Definition source_fails (mem : Memory) (sourceCompiles : Stage -> string -> bool)
    (data : ptr) (vssrc pssrc gssrc : string) : Prop :=
  (is_empty vssrc = false /\ sourceCompiles VertexStage vssrc = false) \/
  (is_empty pssrc = false /\ sourceCompiles PixelStage pssrc = false) \/
  (is_empty gssrc = false /\ gs_compiled (shaderPass mem data) /\
   sourceCompiles GeometryStage gssrc = false).

(** The slot a frame event belongs to, for the events that use the slot's
    program. *)
Definition program_slot (ev : FrameEvent) : option nat :=
  match ev with
  | DrawItem i _ _ _ | BindRenderState i _ _ | PluginDraw i _ _
  | DispatchCompute i _ => Some i
  | RenderAudio _ _ | ExecutePlugin _ _ | PickHandle _ => None
  end.

(** What the recompilation of slot [i] does to the engine: the items stay,
    only slot [i] of [m_shaders] changes, the old program of the slot is
    deleted, and the slot ends at [h]. *)
Definition slot_rebuilt (i : nat) (st st' : RenderEngine) (h : GLuint) : Prop :=
  m_items st' = m_items st /\
  m_computeSupported st' = m_computeSupported st /\
  length (m_shaders st') = length (m_shaders st) /\
  (forall k, k <> i -> nth_error (m_shaders st') k = nth_error (m_shaders st) k) /\
  nth_error (m_shaders st') i = Some h /\
  exists calls, gl_calls (gl st') = gl_calls (gl st) ++ calls /\
    forall p, nth_error (m_shaders st) i = Some p -> p <> 0 ->
              In (DeleteProgram p) calls.

(** One round of a recompilation loop touches at most slot [j]. *)
Definition slot_frame (j : nat) (st st' : RenderEngine) : Prop :=
  m_items st' = m_items st /\
  m_computeSupported st' = m_computeSupported st /\
  length (m_shaders st') = length (m_shaders st) /\
  (forall k, k <> j -> nth_error (m_shaders st') k = nth_error (m_shaders st) k) /\
  exists calls, gl_calls (gl st') = gl_calls (gl st) ++ calls.

(** Slot [i] went from [st] to the degraded state in [st']: the pass still
    occupies the slot, its program handle is the sentinel 0, and the program
    it had before, if any, was deleted on the way. *)
Definition degraded (i : nat) (st st' : RenderEngine) : Prop :=
  nth_error (m_items st') i = nth_error (m_items st) i /\
  nth_error (m_shaders st') i = Some 0 /\
  exists calls, gl_calls (gl st') = gl_calls (gl st) ++ calls /\
    forall p, nth_error (m_shaders st) i = Some p -> p <> 0 ->
              In (DeleteProgram p) calls.

(** Slot [i] holds a pass called [name] one of whose stages fails to compile
    from its files. *)
Definition file_compile_fails (mem : Memory)
    (shaderCompiles : Stage -> ptr -> bool) (name : string)
    (i : nat) (st : RenderEngine) : Prop :=
  exists it, nth_error (m_items st) i = Some it /\
    String.eqb (Name (item mem it)) name = true /\
    ((Type_ (item mem it) = ShaderPass /\
      stage_fails mem shaderCompiles (Data (item mem it))) \/
     (Type_ (item mem it) = ComputePass /\ m_computeSupported st = true /\
      shaderCompiles ComputeStage (Data (item mem it)) = false)).

(** Slot [i] holds a pass called [name] for which the sources handed to
    [RecompileFromSource] fail to compile. *)
Definition source_compile_fails (mem : Memory)
    (sourceCompiles : Stage -> string -> bool) (name vssrc pssrc gssrc : string)
    (i : nat) (st : RenderEngine) : Prop :=
  exists it, nth_error (m_items st) i = Some it /\
    String.eqb (Name (item mem it)) name = true /\
    ((Type_ (item mem it) = ShaderPass /\
      source_fails mem sourceCompiles (Data (item mem it)) vssrc pssrc gssrc) \/
     (Type_ (item mem it) = ComputePass /\ m_computeSupported st = true /\
      is_empty vssrc = false /\ sourceCompiles ComputeStage vssrc = false)).

(** ** Sample sources for the preprocessor *)
Module Samples.
Import Preprocessor.

Definition quoted (s : string) : cstring := [dquote] ++ str s ++ [dquote].
Definition line (s : string) : cstring := str s ++ [newline].
Definition include (file : string) : cstring :=
  str "#include " ++ quoted file ++ [newline].

Definition macroA : ShaderMacro :=
  {| Active := true; Name := str "A"; Value := str "1" |}.
Definition macroB : ShaderMacro :=
  {| Active := false; Name := str "B"; Value := str "2" |}.
Definition macroC : ShaderMacro :=
  {| Active := true; Name := str "C"; Value := str "3" |}.

(** The shader of the spec's example, and the same shader under a leading
    comment line. *)
Definition plain_shader : cstring := line "#version 330" ++ str "void main(){}".
Definition commented_shader : cstring :=
  line "// note" ++ line "#version 330" ++ str "void main(){}".


(** A file that includes a three-line file and then a one-line file. *)
Definition fileX : cstring := line "x1" ++ line "x2" ++ line "x3".
Definition fileY : cstring := line "y1".
Definition fileMain : cstring := include "X" ++ include "Y" ++ line "m".
Definition siblings : gmap cstring cstring :=
  <[str "./X" := fileX]> (<[str "./Y" := fileY]> ∅).
End Samples.

(** ** Measures for include expansion *)
Module IncludeMeasure.
Import Preprocessor.

(** The directive [m_includeCheck] searches for. *)
Definition INC : cstring := str "#include".

(** The number of places in [s] where [#include] begins a line; [b] tells
    whether the first character of [s] begins a line. *)
Fixpoint lsc (b : bool) (s : cstring) : nat :=
  match s with
  | [] => 0
  | c :: s' =>
      ((if b && starts_with INC s then 1 else 0) + lsc (Ascii.eqb c newline) s')%nat
  end.




(** A text with no [#include] at the start of any line. *)
Definition expanded (s : cstring) : Prop := lsc true s = 0%nat.




(** A project of two files [./A] and [./B]. *)
Definition two_files (A B : cstring) : gmap cstring cstring :=
  <[str "./A" := A]> (<[str "./B" := B]> ∅).


End IncludeMeasure.

(* ===================================================================== *)
(** * Properties *)
(* ===================================================================== *)

(** ** Reasoning about the engine monad *)

Lemma bind_Ok {A B} (m : M A) (f : A -> M B) st b st' :
  (m ≫= f) st = Ok (b, st') ->
  exists a st1, m st = Ok (a, st1) /\ f a st1 = Ok (b, st').
Proof.
  unfold mbind, M_bind. destruct (m st) as [[a st1]|]; [|discriminate].
  intros H. eauto.
Qed.

Lemma bind_run {A B} (m : M A) (f : A -> M B) st a st1 :
  m st = Ok (a, st1) -> (m ≫= f) st = f a st1.
Proof. unfold mbind, M_bind. intros ->. reflexivity. Qed.

(** ** Picking: the selection list stays duplicate-free *)

Lemma pick_scan_In l it : pick_scan l it = true <-> In it l.
Proof.
  unfold pick_scan. rewrite existsb_exists. split.
  - intros (x & Hx & E). apply Z.eqb_eq in E. subst. exact Hx.
  - intros H. exists it. split; [exact H | apply Z.eqb_refl].
Qed.

Lemma pick_scan_not_In l it : pick_scan l it = false -> ~ In it l.
Proof.
  intros H Hin. apply pick_scan_In in Hin. congruence.
Qed.

Lemma NoDup_snoc (l : list ptr) x :
  List.NoDup l -> ~ In x l -> List.NoDup (l ++ [x]).
Proof.
  intros Hl Hx. induction Hl as [|y l Hy Hl IH]; simpl.
  - constructor; [tauto | constructor].
  - constructor.
    + rewrite in_app_iff. simpl.
      intros [H|[H|[]]]; [tauto | subst; apply Hx; left; reflexivity].
    + apply IH. intros H. apply Hx. right. exact H.
Qed.

Lemma NoDup_single (x : ptr) : List.NoDup [x].
Proof. constructor; [simpl; tauto | constructor]. Qed.

Lemma Pick_item_spec it add st :
  exists st', Pick_item it add st = Ok (tt, st') /\
    (List.NoDup (m_pick st) -> List.NoDup (m_pick st')) /\
    (In it (m_pick st) -> add = true -> st' = st).
Proof.
  unfold Pick_item, modify.
  destruct (pick_scan (m_pick st) it) eqn:Hs.
  - destruct add; simpl.
    + exists st. repeat split; auto.
    + eexists. split; [reflexivity|].
      split; [intros; apply NoDup_single | discriminate].
  - apply pick_scan_not_In in Hs.
    destruct (it =? nullptr).
    + eexists. split; [reflexivity|]. split; [intros; constructor | tauto].
    + destruct add.
      * eexists. split; [reflexivity|]. split; [|tauto].
        intros H. simpl. apply NoDup_snoc; assumption.
      * eexists. split; [reflexivity|].
        split; [intros; apply NoDup_single | tauto].
Qed.

Lemma AddPickedItem_spec pipe multiPick st :
  exists st', AddPickedItem pipe multiPick st = Ok (tt, st') /\
    (List.NoDup (m_pick st) -> List.NoDup (m_pick st')) /\
    (In pipe (m_pick st) -> multiPick = true -> st' = st).
Proof.
  unfold AddPickedItem, modify.
  destruct (pick_scan (m_pick st) pipe) eqn:Hs.
  - destruct multiPick; simpl.
    + exists st. repeat split; auto.
    + eexists. split; [reflexivity|].
      split; [intros; apply NoDup_single | discriminate].
  - apply pick_scan_not_In in Hs.
    destruct (pipe =? nullptr).
    + eexists. split; [reflexivity|]. split; [intros; constructor | tauto].
    + destruct multiPick.
      * eexists. split; [reflexivity|]. split; [|tauto].
        intros H. simpl. apply NoDup_snoc; assumption.
      * eexists. split; [reflexivity|].
        split; [intros; apply NoDup_single | tauto].
Qed.

Lemma m_pickItem_NoDup mem it multiPick st :
  exists st', m_pickItem mem it multiPick st = Ok (tt, st') /\
    (List.NoDup (m_pick st) -> List.NoDup (m_pick st')).
Proof.
  unfold m_pickItem.
  match goal with |- context [if ?b then mret tt else _] => destruct b end.
  - exists st. split; [reflexivity | auto].
  - unfold mbind, M_bind, get. simpl.
    destruct (Dist_ltb _ _).
    + unfold modify.
      destruct (AddPickedItem_spec it multiPick
                  (set_m_pickDist (pick_myDist mem it (m_pickDist st)) st))
        as (st' & E & Hnd & _).
      exists st'. split; [exact E | exact Hnd].
    + exists st. split; [reflexivity | auto].
Qed.

Lemma run_PickOp_NoDup mem op st :
  exists st', run_PickOp mem op st = Ok (tt, st') /\
    (List.NoDup (m_pick st) -> List.NoDup (m_pick st')).
Proof.
  destruct op as [multiPick | it add | pipe multiPick | it multiPick]; simpl.
  - eexists. split; [reflexivity | auto].
  - destruct (Pick_item_spec it add st) as (st' & E & H & _). eauto.
  - destruct (AddPickedItem_spec pipe multiPick st) as (st' & E & H & _). eauto.
  - apply m_pickItem_NoDup.
Qed.

(** C10.  The pick selection list never holds an item twice: starting from
    a duplicate-free list (the empty list of a fresh engine in particular),
    every sequence of pick operations -- arming a pick, [Pick(item, add)],
    [AddPickedItem] and the per-item test [m_pickItem] -- runs to the end
    and leaves the list duplicate-free; and re-adding an item that is
    already selected, in add (multi-pick) mode, leaves the engine exactly
    as it was, both through [Pick(item, add)] and through [AddPickedItem]. *)
Theorem pick_list_stays_distinct (mem : Memory) (st : RenderEngine) :
  List.NoDup (m_pick st) ->
  (forall ops, exists st',
      run_PickOps mem ops st = Ok (tt, st') /\ List.NoDup (m_pick st')) /\
  (forall it, In it (m_pick st) ->
      Pick_item it true st = Ok (tt, st) /\
      AddPickedItem it true st = Ok (tt, st)).
Proof.
  intros Hnd. split.
  - intros ops. revert st Hnd.
    induction ops as [|op ops IH]; intros st Hnd; simpl.
    + exists st. split; [reflexivity | exact Hnd].
    + destruct (run_PickOp_NoDup mem op st) as (st1 & E1 & H1).
      destruct (IH st1 (H1 Hnd)) as (st' & E' & H').
      exists st'. split; [|exact H'].
      rewrite (bind_run _ _ _ _ _ E1). exact E'.
  - intros it Hin. split.
    + destruct (Pick_item_spec it true st) as (st' & E & _ & Hsame).
      rewrite E, (Hsame Hin eq_refl). reflexivity.
    + destruct (AddPickedItem_spec it true st) as (st' & E & _ & Hsame).
      rewrite E, (Hsame Hin eq_refl). reflexivity.
Qed.

Lemma pick_list_stays_distinct_witness :
  List.NoDup (m_pick Scene.picked) /\
  ((forall ops, exists st',
      run_PickOps Scene.mem ops Scene.picked = Ok (tt, st') /\
      List.NoDup (m_pick st')) /\
   (forall it, In it (m_pick Scene.picked) ->
      Pick_item it true Scene.picked = Ok (tt, Scene.picked) /\
      AddPickedItem it true Scene.picked = Ok (tt, Scene.picked))).
Proof.
  assert (H : List.NoDup (m_pick Scene.picked)).
  { constructor; [simpl; intros [H|[]]; discriminate |].
    constructor; [simpl; tauto | constructor]. }
  split; [exact H |].
  apply (pick_list_stays_distinct Scene.mem Scene.picked).
  exact H.
Defined.

(** ** Picking: the closest hit wins *)

Lemma Dist_ltb_asym a b : Dist_ltb a b = true -> Dist_ltb b a = false.
Proof.
  destruct a as [x|], b as [y|]; simpl; try congruence.
  intros H. apply negb_true_iff in H. apply negb_false_iff.
  apply Qle_bool_iff. apply Qlt_le_weak. apply Qnot_le_lt.
  intros Hle. apply Qle_bool_iff in Hle. congruence.
Qed.

Lemma m_pickItem_box mem it d multiPick st :
  is_box mem it -> IntersectBox mem it = Some d ->
  m_pickItem mem it multiPick st =
    if Dist_ltb d (m_pickDist st)
    then AddPickedItem it multiPick (set_m_pickDist d st)
    else Ok (tt, st).
Proof.
  intros [Ht Hg] Hb. unfold m_pickItem, pick_myDist. rewrite Ht, Hg, Hb. simpl.
  unfold mbind, M_bind, get. simpl.
  destruct (Dist_ltb d (m_pickDist st)); reflexivity.
Qed.

Lemma render_items_box mem i pass it rest d debugID st :
  is_box mem it -> IntersectBox mem it = Some d -> m_pickAwaiting st = true ->
  render_items mem false i pass (it :: rest) debugID st =
  match m_pickItem mem it (m_wasMultiPick st) st with
  | Ok (_, st1) =>
     match render_items mem false i pass rest debugID st1 with
     | Ok ((d', evs), st2) => Ok ((d', DrawItem i pass it None :: evs), st2)
     | UB => UB
     end
  | UB => UB
  end.
Proof.
  intros [Ht Hg] Hb Ha. simpl. rewrite Ht. simpl.
  unfold mbind, M_bind, get at 1. simpl. rewrite Ha.
  destruct (m_pickItem mem it (m_wasMultiPick st) st) as [[[] st1]|]; [|reflexivity].
  simpl. unfold mret, M_ret. simpl.
  destruct (render_items mem false i pass rest debugID st1) as [[[d' evs] st2]|]; reflexivity.
Qed.

Lemma AddPickedItem_result pipe multiPick st :
  pipe <> nullptr ->
  exists st', AddPickedItem pipe multiPick st = Ok (tt, st') /\
    In pipe (m_pick st') /\
    (multiPick = false -> m_pick st' = [pipe]) /\
    m_pickDist st' = m_pickDist st /\
    m_pickAwaiting st' = m_pickAwaiting st /\
    m_wasMultiPick st' = m_wasMultiPick st.
Proof.
  intros Hnz. unfold AddPickedItem, modify.
  destruct (pick_scan (m_pick st) pipe) eqn:Hs.
  - apply pick_scan_In in Hs. destruct multiPick; simpl.
    + exists st. repeat split; auto. discriminate.
    + eexists. split; [reflexivity|]. simpl. repeat split; auto.
  - apply Z.eqb_neq in Hnz. rewrite Hnz. destruct multiPick.
    + eexists. split; [reflexivity|]. simpl. repeat split; auto.
      * apply in_or_app. right. left. reflexivity.
      * discriminate.
    + eexists. split; [reflexivity|]. simpl. repeat split; auto.
Qed.

Lemma render_items_nil mem isDebug i pass debugID st :
  render_items mem isDebug i pass [] debugID st = Ok ((debugID, []), st).
Proof. reflexivity. Qed.

Lemma Dist_ltb_Fin x y : Dist_ltb (Fin x) (Fin y) = true <-> (x < y)%Q.
Proof.
  simpl. rewrite negb_true_iff. split.
  - intros H. apply Qnot_le_lt. intros Hle. apply Qle_bool_iff in Hle. congruence.
  - intros H. destruct (Qle_bool y x) eqn:E; [|reflexivity].
    apply Qle_bool_iff in E. exfalso. exact (Qlt_not_le _ _ H E).
Qed.

Lemma Dist_ltb_Fin_false x y : (x <= y)%Q -> Dist_ltb (Fin y) (Fin x) = false.
Proof.
  intros H. simpl. apply negb_false_iff. apply Qle_bool_iff. exact H.
Qed.

(** C9.  Resolution of a geometric ray pick.  (1) [m_pickItem] leaves the
    engine untouched unless the tested item's hit distance is strictly smaller
    than the current minimum [m_pickDist].  (2) For two distinct boxes hit at
    different distances, drawing them in either declaration order ends with
    [m_pickDist] at the nearer distance and the nearer box selected; in
    single-pick mode the selection is exactly the nearer box.  (3) When the
    two boxes are hit at equal distances the second one tested changes
    nothing: the engine ends in the state the first box alone produces. *)
Theorem ray_pick_closest_hit (mem : Memory) :
  (forall it multiPick st,
     Dist_ltb (pick_myDist mem it (m_pickDist st)) (m_pickDist st) = false ->
     m_pickItem mem it multiPick st = Ok (tt, st)) /\
  (forall X Y dX dY i pass debugID st children,
     is_box mem X -> is_box mem Y -> X <> nullptr -> Y <> nullptr ->
     IntersectBox mem X = Some (Fin dX) -> IntersectBox mem Y = Some (Fin dY) ->
     (dX < dY)%Q ->
     m_pickAwaiting st = true -> m_pickDist st = Inf ->
     children = [X; Y] \/ children = [Y; X] ->
     exists r st',
       render_items mem false i pass children debugID st = Ok (r, st') /\
       m_pickDist st' = Fin dX /\
       In X (m_pick st') /\
       (m_wasMultiPick st = false -> m_pick st' = [X])) /\
  (forall X Y dX dY i pass debugID st,
     is_box mem X -> is_box mem Y -> X <> nullptr ->
     IntersectBox mem X = Some (Fin dX) -> IntersectBox mem Y = Some (Fin dY) ->
     (dX == dY)%Q ->
     m_pickAwaiting st = true -> m_pickDist st = Inf ->
     exists r1 r2 st',
       render_items mem false i pass [X] debugID st = Ok (r1, st') /\
       render_items mem false i pass [X; Y] debugID st = Ok (r2, st') /\
       In X (m_pick st') /\
       (m_wasMultiPick st = false -> m_pick st' = [X])).
Proof.
  split; [|split].
  - intros it multiPick st H. unfold m_pickItem.
    match goal with |- context [if ?b then mret tt else _] => destruct b end;
      [reflexivity|].
    unfold mbind, M_bind, get. simpl. rewrite H. reflexivity.
  - intros X Y dX dY i pass debugID st children HX HY HXn HYn HbX HbY Hlt Haw Hinf Hch.
    assert (HltD : Dist_ltb (Fin dX) (Fin dY) = true) by (apply Dist_ltb_Fin; exact Hlt).
    destruct Hch as [-> | ->].
    + (* the nearer box is declared first *)
      rewrite (render_items_box mem i pass X [Y] (Fin dX)); auto.
      rewrite (m_pickItem_box mem X (Fin dX)); auto.
      rewrite Hinf. simpl Dist_ltb. cbv iota.
      destruct (AddPickedItem_result X (m_wasMultiPick st) (set_m_pickDist (Fin dX) st) HXn)
        as (st1 & E1 & Hin & Hsingle & Hd & Ha & Hm).
      rewrite E1.
      rewrite (render_items_box mem i pass Y [] (Fin dY)); [|auto|auto|rewrite Ha; exact Haw].
      rewrite (m_pickItem_box mem Y (Fin dY)); auto.
      rewrite Hd. simpl m_pickDist.
      rewrite (Dist_ltb_asym _ _ HltD). rewrite render_items_nil.
      eexists _, st1. split; [reflexivity|].
      split; [rewrite Hd; reflexivity|]. split; [exact Hin|].
      intros Hs. apply Hsingle. exact Hs.
    + (* the farther box is declared first *)
      rewrite (render_items_box mem i pass Y [X] (Fin dY)); auto.
      rewrite (m_pickItem_box mem Y (Fin dY)); auto.
      rewrite Hinf. simpl Dist_ltb. cbv iota.
      destruct (AddPickedItem_result Y (m_wasMultiPick st) (set_m_pickDist (Fin dY) st) HYn)
        as (st1 & E1 & _ & _ & Hd & Ha & Hm).
      rewrite E1.
      rewrite (render_items_box mem i pass X [] (Fin dX)); [|auto|auto|rewrite Ha; exact Haw].
      rewrite (m_pickItem_box mem X (Fin dX)); auto.
      rewrite Hd. simpl m_pickDist. rewrite HltD.
      destruct (AddPickedItem_result X (m_wasMultiPick st1) (set_m_pickDist (Fin dX) st1) HXn)
        as (st2 & E2 & Hin & Hsingle & Hd2 & _ & _).
      rewrite E2. rewrite render_items_nil.
      eexists _, st2. split; [reflexivity|].
      split; [rewrite Hd2; reflexivity|]. split; [exact Hin|].
      intros Hs. apply Hsingle. rewrite Hm. exact Hs.
  - intros X Y dX dY i pass debugID st HX HY HXn HbX HbY Heq Haw Hinf.
    rewrite (render_items_box mem i pass X [Y] (Fin dX)); auto.
    rewrite (render_items_box mem i pass X [] (Fin dX)); auto.
    rewrite (m_pickItem_box mem X (Fin dX)); auto.
    rewrite Hinf. simpl Dist_ltb. cbv iota.
    destruct (AddPickedItem_result X (m_wasMultiPick st) (set_m_pickDist (Fin dX) st) HXn)
      as (st1 & E1 & Hin & Hsingle & Hd & Ha & Hm).
    rewrite E1.
    rewrite (render_items_box mem i pass Y [] (Fin dY)); [|auto|auto|rewrite Ha; exact Haw].
    rewrite (m_pickItem_box mem Y (Fin dY)); auto.
    rewrite Hd. simpl m_pickDist.
    rewrite (Dist_ltb_Fin_false dX dY); [|rewrite Heq; apply Qle_refl].
    rewrite !render_items_nil.
    eexists _, _, st1. split; [reflexivity|]. split; [reflexivity|].
    split; [exact Hin|]. intros Hs. apply Hsingle. exact Hs.
Qed.

Lemma ray_pick_closest_hit_witness :
  (exists r st',
     render_items Scene.mem false 0 1 [21; 11] 1 (Scene.armed false) = Ok (r, st') /\
     m_pickDist st' = Fin (2 # 1) /\ m_pick st' = [21]) /\
  (exists r st',
     render_items Scene.mem false 0 1 [11; 21] 1 (Scene.armed false) = Ok (r, st') /\
     m_pickDist st' = Fin (2 # 1) /\ m_pick st' = [21]) /\
  (exists r1 r2 st',
     render_items Scene.mem false 0 1 [21] 1 (Scene.armed false) = Ok (r1, st') /\
     render_items Scene.mem false 0 1 [21; 22] 1 (Scene.armed false) = Ok (r2, st') /\
     m_pick st' = [21]).
Proof.
  destruct (ray_pick_closest_hit Scene.mem) as (_ & Hnear & Htie).
  assert (Hb : forall p, p = 11 \/ p = 21 \/ p = 22 -> is_box Scene.mem p).
  { intros p [-> | [-> | ->]]; split; reflexivity. }
  split; [|split].
  - destruct (Hnear 21 11 (2 # 1) (5 # 1) 0%nat 1 1 (Scene.armed false) [21; 11])
      as (r & st' & E & Hd & _ & Hs);
      try (apply Hb; tauto); try discriminate; try reflexivity; [tauto|].
    exists r, st'. split; [exact E|]. split; [exact Hd | apply Hs; reflexivity].
  - destruct (Hnear 21 11 (2 # 1) (5 # 1) 0%nat 1 1 (Scene.armed false) [11; 21])
      as (r & st' & E & Hd & _ & Hs);
      try (apply Hb; tauto); try discriminate; try reflexivity; [tauto|].
    exists r, st'. split; [exact E|]. split; [exact Hd | apply Hs; reflexivity].
  - destruct (Htie 21 22 (2 # 1) (4 # 2) 0%nat 1 1 (Scene.armed false))
      as (r1 & r2 & st' & E1 & E2 & _ & Hs);
      try (apply Hb; tauto); try discriminate; try reflexivity.
    exists r1, r2, st'. split; [exact E1|]. split; [exact E2 | apply Hs; reflexivity].
Defined.

(** ** The debounce of [m_cache] *)

(** C5.  Debounce.  When the pipeline list has as many items as the shadow
    list and the cache timer has not passed 0.5 s, [m_cache] returns at once:
    the engine -- cache lists, GL objects and the log of GL calls -- is
    exactly what it was, so nothing was added, removed, moved or compiled.
    When the timer has passed 0.5 s the timer is restarted and the three
    reconciliation scans run from that state. *)
Theorem m_cache_debounce (mem : Memory) (MAXRT : nat)
    (shaderCompiles : Stage -> ptr -> bool)
    (items : list ptr) (now : Q) (st : RenderEngine) :
  length (m_items st) = length items ->
  ((now - m_cacheTimer st <= 1 # 2)%Q ->
     m_cache mem MAXRT shaderCompiles items now st = Ok (tt, st)) /\
  ((1 # 2 < now - m_cacheTimer st)%Q ->
     m_cache mem MAXRT shaderCompiles items now st =
       cache_reconcile mem MAXRT shaderCompiles items (set_m_cacheTimer now st) /\
     m_cacheTimer (set_m_cacheTimer now st) = now).
Proof.
  intros Hlen. unfold m_cache, mbind, M_bind, get. simpl.
  rewrite Hlen, Nat.eqb_refl. unfold timer_expired. split.
  - intros Hle. apply Qle_bool_iff in Hle. rewrite Hle. reflexivity.
  - intros Hlt. split; [|reflexivity].
    destruct (Qle_bool (now - m_cacheTimer st) (1 # 2)) eqn:E.
    + apply Qle_bool_iff in E. exfalso. exact (Qlt_not_le _ _ Hlt E).
    + reflexivity.
Qed.

Lemma m_cache_debounce_witness :
  length (m_items Scene.cached) = length [2; 1] /\
  m_cache Scene.mem Scene.MAX_RENDER_TEXTURES Scene.compiles [2; 1] (1 # 4) Scene.cached
    = Ok (tt, Scene.cached) /\
  m_cache Scene.mem Scene.MAX_RENDER_TEXTURES Scene.compiles [2; 1] (3 # 4) Scene.cached
    = cache_reconcile Scene.mem Scene.MAX_RENDER_TEXTURES Scene.compiles [2; 1]
        (set_m_cacheTimer (3 # 4) Scene.cached).
Proof.
  assert (Hlen : length (m_items Scene.cached) = length [2; 1]) by reflexivity.
  assert (Hearly : ((1 # 4) - m_cacheTimer Scene.cached <= 1 # 2)%Q)
    by (vm_compute; discriminate).
  assert (Hlate : (1 # 2 < (3 # 4) - m_cacheTimer Scene.cached)%Q)
    by (vm_compute; reflexivity).
  split; [exact Hlen|]. split.
  - exact (proj1 (m_cache_debounce Scene.mem Scene.MAX_RENDER_TEXTURES
                    Scene.compiles [2; 1] (1 # 4) Scene.cached Hlen) Hearly).
  - exact (proj1 (proj2 (m_cache_debounce Scene.mem Scene.MAX_RENDER_TEXTURES
                    Scene.compiles [2; 1] (3 # 4) Scene.cached Hlen) Hlate)).
Defined.

(** ** Frame rendering leaves the cache lists alone *)

Lemma keeps_ret {A} (a : A) : keeps (mret a).
Proof. intros st b st' H. inversion H. reflexivity. Qed.

Lemma keeps_bind {A B} (m : M A) (f : A -> M B) :
  keeps m -> (forall a, keeps (f a)) -> keeps (m ≫= f).
Proof.
  intros Hm Hf st b st' H. apply bind_Ok in H as (a & st1 & H1 & H2).
  rewrite (Hf _ _ _ _ H2). exact (Hm _ _ _ H1).
Qed.

Lemma keeps_get : keeps get.
Proof. intros st a st' H. inversion H. reflexivity. Qed.

Lemma keeps_lift {A} (r : result A) : keeps (lift r).
Proof. intros st a st' H. unfold lift in H. destruct r; inversion H. reflexivity. Qed.

Lemma keeps_modify (f : RenderEngine -> RenderEngine) :
  (forall st, cache_view (f st) = cache_view st) -> keeps (modify f).
Proof. intros Hf st a st' H. inversion H. apply Hf. Qed.

Create HintDb keeps.
#[local] Hint Resolve keeps_ret keeps_get keeps_lift : keeps.

Ltac keeps_step :=
  first
    [ solve [ auto with keeps ]
    | apply keeps_modify; intros; reflexivity
    | apply keeps_bind; [| intros ]
    | match goal with
      | |- keeps (if ?b then _ else _) => destruct b
      | |- keeps (match ?x with _ => _ end) => destruct x
      end
    | progress cbv zeta ].

Ltac keeps_auto := repeat keeps_step.

Lemma keeps_gl_fresh : keeps gl_fresh.
Proof. intros st a st' H. inversion H. reflexivity. Qed.

Lemma keeps_gl_record c : keeps (gl_record c).
Proof. unfold gl_record. keeps_auto. Qed.

Lemma keeps_gl_set_programs f : keeps (gl_set_programs f).
Proof. unfold gl_set_programs. keeps_auto. Qed.
#[local] Hint Resolve keeps_gl_fresh keeps_gl_record keeps_gl_set_programs : keeps.

Lemma keeps_glGenFramebuffers : keeps glGenFramebuffers.
Proof. unfold glGenFramebuffers. keeps_auto. Qed.

Lemma keeps_glDeleteFramebuffers f : keeps (glDeleteFramebuffers f).
Proof. unfold glDeleteFramebuffers. keeps_auto. Qed.
#[local] Hint Resolve keeps_glGenFramebuffers keeps_glDeleteFramebuffers : keeps.

Lemma keeps_AddPickedItem pipe multiPick : keeps (AddPickedItem pipe multiPick).
Proof.
  intros st a st' H. unfold AddPickedItem, modify in H. inversion H.
  repeat match goal with |- context [if ?b then _ else _] => destruct b end;
    reflexivity.
Qed.
#[local] Hint Resolve keeps_AddPickedItem : keeps.

Lemma keeps_m_pickItem mem it multiPick : keeps (m_pickItem mem it multiPick).
Proof. unfold m_pickItem. keeps_auto. Qed.
#[local] Hint Resolve keeps_m_pickItem : keeps.

Lemma keeps_m_updatePassFBO mem pass : keeps (m_updatePassFBO mem pass).
Proof. unfold m_updatePassFBO. keeps_auto. Qed.
#[local] Hint Resolve keeps_m_updatePassFBO : keeps.

Lemma keeps_read_items i : keeps (read_items i).
Proof. unfold read_items. keeps_auto. Qed.
Lemma keeps_read_shaders i : keeps (read_shaders i).
Proof. unfold read_shaders. keeps_auto. Qed.
Lemma keeps_read_debugShaders i : keeps (read_debugShaders i).
Proof. unfold read_debugShaders. keeps_auto. Qed.
#[local] Hint Resolve keeps_read_items keeps_read_shaders keeps_read_debugShaders : keeps.

Lemma keeps_render_items mem isDebug i pass children :
  forall debugID, keeps (render_items mem isDebug i pass children debugID).
Proof.
  induction children as [|c rest IH]; intros debugID; simpl.
  - apply keeps_ret.
  - repeat (keeps_step || apply IH).
Qed.
#[local] Hint Resolve keeps_render_items : keeps.

Lemma keeps_render_pass mem isDebug i debugID :
  keeps (render_pass mem isDebug i debugID).
Proof. unfold render_pass. keeps_auto. Qed.
#[local] Hint Resolve keeps_render_pass : keeps.

Lemma keeps_render_loop mem isDebug n :
  forall lo debugID, keeps (render_loop mem isDebug lo n debugID).
Proof.
  induction n as [|n IH]; intros lo debugID; simpl;
    repeat (keeps_step || apply IH).
Qed.

(** ** Debug IDs: the decoder replays the assignment *)

Lemma mret_Ok {A} (a b : A) st st' :
  (mret a : M A) st = Ok (b, st') -> b = a /\ st' = st.
Proof. intros H. inversion H. auto. Qed.

Lemma lift_Ok {A} (r : result A) a st st' :
  lift r st = Ok (a, st') -> r = Ok a /\ st' = st.
Proof. unfold lift. destruct r; intros H; inversion H. auto. Qed.



Lemma read_items_Ok i st a st' :
  read_items i st = Ok (a, st') -> vec_at (m_items st) i = Ok a /\ st' = st.
Proof.
  unfold read_items. intros H. apply bind_Ok in H as (s & s1 & Hg & H).
  inversion Hg; subst. apply lift_Ok in H. exact H.
Qed.

Lemma read_shaders_Ok i st a st' :
  read_shaders i st = Ok (a, st') -> vec_at (m_shaders st) i = Ok a /\ st' = st.
Proof.
  unfold read_shaders. intros H. apply bind_Ok in H as (s & s1 & Hg & H).
  inversion Hg; subst. apply lift_Ok in H. exact H.
Qed.








(** ** Compile failures leave the "no program" handle *)

Lemma get_Ok st a st' : get st = Ok (a, st') -> a = st /\ st' = st.
Proof. intros H. inversion H. auto. Qed.

Lemma modify_Ok f st a st' : modify f st = Ok (a, st') -> st' = f st.
Proof. intros H. inversion H. auto. Qed.

Lemma quiet_ret {A} (a : A) : quiet (mret a).
Proof.
  intros st b st' H. apply mret_Ok in H as [_ ->].
  repeat split. exists []. symmetry. apply app_nil_r.
Qed.

Lemma quiet_bind {A B} (m : M A) (f : A -> M B) :
  quiet m -> (forall a, quiet (f a)) -> quiet (m ≫= f).
Proof.
  intros Hm Hf st b st' H. apply bind_Ok in H as (a & st1 & H1 & H2).
  destruct (Hm _ _ _ H1) as (V1 & C1 & calls1 & L1).
  destruct (Hf _ _ _ _ H2) as (V2 & C2 & calls2 & L2).
  split; [congruence|]. split; [congruence|].
  exists (calls1 ++ calls2). rewrite L2, L1. symmetry. apply app_assoc.
Qed.

Lemma quiet_get : quiet get.
Proof.
  intros st a st' H. apply get_Ok in H as [_ ->].
  repeat split. exists []. symmetry. apply app_nil_r.
Qed.

Lemma quiet_lift {A} (r : result A) : quiet (lift r).
Proof.
  intros st a st' H. apply lift_Ok in H as [_ ->].
  repeat split. exists []. symmetry. apply app_nil_r.
Qed.

Lemma quiet_gl_fresh : quiet gl_fresh.
Proof.
  intros st a st' H. inversion H. repeat split.
  exists []. simpl. symmetry. apply app_nil_r.
Qed.

Lemma quiet_gl_record c : quiet (gl_record c).
Proof.
  intros st a st' H. apply modify_Ok in H. subst. repeat split.
  exists [c]. reflexivity.
Qed.

Lemma quiet_gl_set_programs f : quiet (gl_set_programs f).
Proof.
  intros st a st' H. apply modify_Ok in H. subst. repeat split.
  exists []. simpl. symmetry. apply app_nil_r.
Qed.

Lemma quiet_write_shaderSources i p : quiet (write_shaderSources i p).
Proof.
  intros st a st' H. unfold write_shaderSources in H.
  apply bind_Ok in H as (s & s1 & Hg & H). apply get_Ok in Hg as [-> ->].
  apply bind_Ok in H as (v & s2 & Hv & H). apply lift_Ok in Hv as [_ ->].
  apply modify_Ok in H. subst. repeat split.
  exists []. simpl. symmetry. apply app_nil_r.
Qed.

Create HintDb quiet.
#[local] Hint Resolve quiet_ret quiet_get quiet_lift quiet_gl_fresh quiet_gl_record
  quiet_gl_set_programs quiet_write_shaderSources : quiet.

Ltac quiet_step :=
  first
    [ solve [ auto with quiet ]
    | apply quiet_bind; [| intros ]
    | match goal with
      | |- quiet (if ?b then _ else _) => destruct b
      | |- quiet (match ?x with _ => _ end) => destruct x
      end
    | progress cbv zeta ].

Ltac quiet_auto := repeat quiet_step.

Lemma quiet_glCreateProgram : quiet glCreateProgram.
Proof. unfold glCreateProgram. quiet_auto. Qed.
Lemma quiet_glDeleteProgram p : quiet (glDeleteProgram p).
Proof. unfold glDeleteProgram. quiet_auto. Qed.
Lemma quiet_glDeleteShader s : quiet (glDeleteShader s).
Proof. unfold glDeleteShader. quiet_auto. Qed.
Lemma quiet_gl_CompileShader stage data : quiet (gl_CompileShader stage data).
Proof. unfold gl_CompileShader. quiet_auto. Qed.
Lemma quiet_gl_CompileSource stage src : quiet (gl_CompileSource stage src).
Proof. unfold gl_CompileSource. quiet_auto. Qed.
Lemma quiet_read_shaders i : quiet (read_shaders i).
Proof. unfold read_shaders. quiet_auto. Qed.
Lemma quiet_read_shaderSources i : quiet (read_shaderSources i).
Proof. unfold read_shaderSources. quiet_auto. Qed.
Lemma quiet_read_debugShaders i : quiet (read_debugShaders i).
Proof. unfold read_debugShaders. quiet_auto. Qed.
Lemma quiet_read_items i : quiet (read_items i).
Proof. unfold read_items. quiet_auto. Qed.
#[local] Hint Resolve quiet_glCreateProgram quiet_glDeleteProgram quiet_glDeleteShader
  quiet_gl_CompileShader quiet_gl_CompileSource quiet_read_shaders
  quiet_read_shaderSources quiet_read_debugShaders quiet_read_items : quiet.

Lemma nth_error_set_same {A} (v : list A) i x :
  (i < length v)%nat ->
  nth_error (firstn i v ++ x :: skipn (S i) v) i = Some x.
Proof.
  intros Hi. rewrite nth_error_app2; rewrite length_firstn, Nat.min_l by lia; [|lia].
  rewrite Nat.sub_diag. reflexivity.
Qed.

Lemma nth_error_set_other {A} (v : list A) i k x :
  (i < length v)%nat -> k <> i ->
  nth_error (firstn i v ++ x :: skipn (S i) v) k = nth_error v k.
Proof.
  intros Hi Hk. destruct (Nat.lt_ge_cases k i) as [Hlt|Hge].
  - rewrite nth_error_app1 by (rewrite length_firstn; lia).
    rewrite nth_error_firstn. destruct (k <? i)%nat eqn:E; [reflexivity|].
    apply Nat.ltb_ge in E. lia.
  - rewrite nth_error_app2; rewrite length_firstn, Nat.min_l by lia; [|lia].
    destruct (k - i)%nat as [|m] eqn:E; [lia|]. simpl.
    rewrite nth_error_skipn. f_equal. lia.
Qed.

Lemma length_set {A} (v : list A) i x :
  (i < length v)%nat -> length (firstn i v ++ x :: skipn (S i) v) = length v.
Proof.
  intros Hi. rewrite length_app, length_firstn. simpl. rewrite length_skipn. lia.
Qed.

Lemma write_shaders_Ok i x st u st' :
  write_shaders i x st = Ok (u, st') ->
  (i < length (m_shaders st))%nat /\
  st' = set_m_shaders (firstn i (m_shaders st) ++ x :: skipn (S i) (m_shaders st)) st.
Proof.
  unfold write_shaders. intros H.
  apply bind_Ok in H as (s & s1 & Hg & H). apply get_Ok in Hg as [-> ->].
  apply bind_Ok in H as (v & s2 & Hv & H). apply lift_Ok in Hv as [Hv ->].
  apply modify_Ok in H. subst st'. unfold vec_set in Hv.
  destruct (i <? length (m_shaders st))%nat eqn:E; [|discriminate].
  apply Nat.ltb_lt in E. inversion Hv. auto.
Qed.

Lemma vec_at_nth {A} (v : list A) i x : vec_at v i = Ok x <-> nth_error v i = Some x.
Proof.
  unfold vec_at. destruct (nth_error v i); split; intros H; inversion H; reflexivity.
Qed.

Lemma glDeleteProgram_Ok p st u st' :
  glDeleteProgram p st = Ok (u, st') ->
  cache_view st' = cache_view st /\
  m_computeSupported st' = m_computeSupported st /\
  exists calls, gl_calls (gl st') = gl_calls (gl st) ++ calls /\
                (p <> 0 -> In (DeleteProgram p) calls).
Proof.
  unfold glDeleteProgram. destruct (p =? 0) eqn:E; intros H.
  - apply mret_Ok in H as [_ ->]. repeat split. exists [].
    split; [symmetry; apply app_nil_r|]. apply Z.eqb_eq in E. tauto.
  - apply bind_Ok in H as (a & s & H1 & H).
    apply modify_Ok in H1. apply modify_Ok in H. subst. repeat split.
    exists [DeleteProgram p]. split; [reflexivity | simpl; auto].
Qed.

(** The tail every recompilation shares: delete the slot's old program, then
    store 0 on failure or a new program on success. *)
Lemma relink_spec i (failed : bool) st u st' :
  (p ← read_shaders i;
   (if negb (p =? 0) then glDeleteProgram p else mret tt);;
   (if failed then write_shaders i 0
    else prog ← glCreateProgram; write_shaders i prog)) st = Ok (u, st') ->
  exists h, slot_rebuilt i st st' h /\ (failed = true -> h = 0).
Proof.
  intros H.
  apply bind_Ok in H as (p & s1 & Hp & H). apply read_shaders_Ok in Hp as [Hp ->].
  apply vec_at_nth in Hp.
  apply bind_Ok in H as (u1 & s2 & Hdel & H).
  assert (Hd : cache_view s2 = cache_view st /\
               m_computeSupported s2 = m_computeSupported st /\
               exists calls, gl_calls (gl s2) = gl_calls (gl st) ++ calls /\
                             (p <> 0 -> In (DeleteProgram p) calls)).
  { destruct (negb (p =? 0)) eqn:E.
    - apply glDeleteProgram_Ok in Hdel. exact Hdel.
    - apply mret_Ok in Hdel as [_ ->]. repeat split. exists [].
      split; [symmetry; apply app_nil_r|].
      apply negb_false_iff, Z.eqb_eq in E. tauto. }
  destruct Hd as (V2 & C2 & calls2 & L2 & D2).
  assert (Hw : exists h s3 calls3,
             write_shaders i h s3 = Ok (u, st') /\ (failed = true -> h = 0) /\
             cache_view s3 = cache_view s2 /\
             m_computeSupported s3 = m_computeSupported s2 /\
             gl_calls (gl s3) = gl_calls (gl s2) ++ calls3).
  { destruct failed.
    - exists 0, s2, []. destruct u. split; [exact H|]. repeat split.
      symmetry; apply app_nil_r.
    - apply bind_Ok in H as (prog & s3 & Hc & H).
      destruct (quiet_glCreateProgram _ _ _ Hc) as (V3 & C3 & calls3 & L3).
      exists prog, s3, calls3. destruct u. split; [exact H|].
      split; [discriminate|]. auto. }
  destruct Hw as (h & s3 & calls3 & Hw & Hf & V3 & C3 & L3).
  apply write_shaders_Ok in Hw as [Hlen ->].
  assert (Es : m_shaders s3 = m_shaders st) by (unfold cache_view in *; congruence).
  assert (Ei : m_items s3 = m_items st) by (unfold cache_view in *; congruence).
  exists h. split; [|exact Hf].
  unfold slot_rebuilt. simpl. rewrite Es in *.
  split; [exact Ei|]. split; [congruence|].
  split; [apply length_set; exact Hlen|].
  split; [intros k Hk; apply nth_error_set_other; assumption|].
  split; [apply nth_error_set_same; exact Hlen|].
  exists (calls2 ++ calls3). split; [rewrite L3, L2; symmetry; apply app_assoc|].
  intros q Hq Hq0. rewrite Hp in Hq. inversion Hq; subst q.
  apply in_or_app. left. apply D2. exact Hq0.
Qed.

Lemma slot_rebuilt_after {A} (m : M A) i st a s1 st' h :
  quiet m -> m st = Ok (a, s1) -> slot_rebuilt i s1 st' h ->
  slot_rebuilt i st st' h.
Proof.
  intros Hq Hm (Hi & Hc & Hl & Hk & Hh & calls & L & D).
  destruct (Hq _ _ _ Hm) as (V & C & calls0 & L0).
  assert (Es : m_shaders s1 = m_shaders st) by (unfold cache_view in *; congruence).
  assert (Ei : m_items s1 = m_items st) by (unfold cache_view in *; congruence).
  unfold slot_rebuilt. rewrite <- Es, <- Ei.
  split; [exact Hi|]. split; [congruence|]. split; [exact Hl|].
  split; [exact Hk|]. split; [exact Hh|].
  exists (calls0 ++ calls). split; [rewrite L, L0; symmetry; apply app_assoc|].
  intros p Hp Hp0. apply in_or_app. right. apply D; assumption.
Qed.

Lemma slot_rebuilt_before {A} (m : M A) i st s1 a st' h :
  quiet m -> slot_rebuilt i st s1 h -> m s1 = Ok (a, st') ->
  slot_rebuilt i st st' h.
Proof.
  intros Hq (Hi & Hc & Hl & Hk & Hh & calls & L & D) Hm.
  destruct (Hq _ _ _ Hm) as (V & C & calls0 & L0).
  assert (Es : m_shaders st' = m_shaders s1) by (unfold cache_view in *; congruence).
  assert (Ei : m_items st' = m_items s1) by (unfold cache_view in *; congruence).
  unfold slot_rebuilt. rewrite Es, Ei.
  split; [exact Hi|]. split; [congruence|]. split; [exact Hl|].
  split; [exact Hk|]. split; [exact Hh|].
  exists (calls ++ calls0). split; [rewrite L0, L; symmetry; apply app_assoc|].
  intros p Hp Hp0. apply in_or_app. left. apply D; assumption.
Qed.

Lemma relink_then {B} i (failed : bool) (k : M B) st b st' :
  (p ← read_shaders i;
   (if negb (p =? 0) then glDeleteProgram p else mret tt);;
   (if failed then write_shaders i 0
    else prog ← glCreateProgram; write_shaders i prog);;
   k) st = Ok (b, st') ->
  exists h s, slot_rebuilt i st s h /\ (failed = true -> h = 0) /\
              k s = Ok (b, st').
Proof.
  intros H.
  apply bind_Ok in H as (p & s1 & Hp & H).
  apply bind_Ok in H as (u1 & s2 & Hdel & H).
  apply bind_Ok in H as (u2 & s3 & Hlink & H).
  destruct (relink_spec i failed st u2 s3) as (h & Hs & Hf).
  { rewrite (bind_run _ _ _ _ _ Hp). rewrite (bind_run _ _ _ _ _ Hdel). exact Hlink. }
  exists h, s3. auto.
Qed.

Lemma recompile_ComputePass_spec mem sc i it st st' :
  recompile_ComputePass mem sc i it st = Ok (tt, st') ->
  exists h, slot_rebuilt i st st' h /\
            (sc ComputeStage (Data (item mem it)) = false -> h = 0).
Proof.
  unfold recompile_ComputePass. intros H.
  apply bind_Ok in H as (cs & s1 & Hc & H). cbv zeta in H.
  apply relink_then in H as (h & s2 & Hs & Hf & Hk).
  exists h. split.
  - eapply slot_rebuilt_after; [apply quiet_gl_CompileShader | exact Hc |].
    eapply slot_rebuilt_before; [apply quiet_glDeleteShader | exact Hs | exact Hk].
  - intros E. apply Hf. rewrite E. reflexivity.
Qed.

Lemma recompile_ShaderPass_spec mem sc i it st st' :
  recompile_ShaderPass mem sc i it st = Ok (tt, st') ->
  exists h, slot_rebuilt i st st' h /\
            (stage_fails mem sc (Data (item mem it)) -> h = 0).
Proof.
  unfold recompile_ShaderPass. cbv zeta. intros H.
  set (data := Data (item mem it)) in *. set (sp := shaderPass mem data) in *.
  apply bind_Ok in H as (old & s1 & H1 & H).
  apply bind_Ok in H as (u2 & s2 & H2 & H).
  apply bind_Ok in H as (u3 & s3 & H3 & H).
  apply bind_Ok in H as (u4 & s4 & H4 & H).
  apply bind_Ok in H as (ps & s5 & H5 & H).
  apply bind_Ok in H as (vs & s6 & H6 & H).
  apply bind_Ok in H as ([gs gsCompiled] & s7 & H7 & H).
  apply relink_then in H as (h & s8 & Hs & Hf & Hk).
  assert (Hgs : quiet (if GSUsed sp && negb (is_empty (GSPath sp))
                          && negb (is_empty (GSEntry sp))
                       then g ← gl_CompileShader GeometryStage data;
                            mret (g, sc GeometryStage data)
                       else mret (0, true))) by quiet_auto.
  assert (Hgv : gs_compiled sp -> gsCompiled = sc GeometryStage data).
  { intros (G1 & G2 & G3). rewrite G1, G2, G3 in H7. simpl in H7.
    apply bind_Ok in H7 as (g & s & _ & H7). apply mret_Ok in H7 as [H7 _].
    inversion H7. reflexivity. }
  exists h. split.
  - eapply slot_rebuilt_after; [apply quiet_read_shaderSources | exact H1 |].
    eapply slot_rebuilt_after; [apply quiet_glDeleteShader | exact H2 |].
    eapply slot_rebuilt_after; [apply quiet_glDeleteShader | exact H3 |].
    eapply slot_rebuilt_after; [apply quiet_glDeleteShader | exact H4 |].
    eapply slot_rebuilt_after; [apply quiet_gl_CompileShader | exact H5 |].
    eapply slot_rebuilt_after; [apply quiet_gl_CompileShader | exact H6 |].
    eapply slot_rebuilt_after; [exact Hgs | exact H7 |].
    eapply slot_rebuilt_before; [apply quiet_write_shaderSources | exact Hs | exact Hk].
  - intros [E | [E | [G E]]]; apply Hf.
    + rewrite E. reflexivity.
    + rewrite E. destruct (sc VertexStage data); reflexivity.
    + rewrite (Hgv G), E.
      destruct (sc VertexStage data), (sc PixelStage data); reflexivity.
Qed.

Lemma recompileSource_ShaderPass_spec mem srcC i it vssrc pssrc gssrc st st' :
  recompileSource_ShaderPass mem srcC i it vssrc pssrc gssrc st = Ok (tt, st') ->
  exists h, slot_rebuilt i st st' h /\
            (source_fails mem srcC (Data (item mem it)) vssrc pssrc gssrc -> h = 0).
Proof.
  unfold recompileSource_ShaderPass. cbv zeta. intros H.
  set (sp := shaderPass mem (Data (item mem it))) in *.
  apply bind_Ok in H as (psCompiled & s1 & H1 & H).
  apply bind_Ok in H as (vsCompiled & s2 & H2 & H).
  apply bind_Ok in H as (gsCompiled & s3 & H3 & H).
  apply relink_spec in H as (h & Hs & Hf).
  match type of H1 with ?m _ = _ => assert (Q1 : quiet m) by quiet_auto end.
  match type of H2 with ?m _ = _ => assert (Q2 : quiet m) by quiet_auto end.
  match type of H3 with ?m _ = _ => assert (Q3 : quiet m) by quiet_auto end.
  assert (V1 : is_empty pssrc = false -> psCompiled = srcC PixelStage pssrc).
  { intros E. rewrite E in H1. simpl in H1.
    apply bind_Ok in H1 as (? & ? & _ & H1). apply bind_Ok in H1 as (? & ? & _ & H1).
    apply bind_Ok in H1 as (? & ? & _ & H1). apply bind_Ok in H1 as (? & ? & _ & H1).
    apply mret_Ok in H1 as [-> _]. reflexivity. }
  assert (V2 : is_empty vssrc = false -> vsCompiled = srcC VertexStage vssrc).
  { intros E. rewrite E in H2. simpl in H2.
    apply bind_Ok in H2 as (? & ? & _ & H2). apply bind_Ok in H2 as (? & ? & _ & H2).
    apply bind_Ok in H2 as (? & ? & _ & H2). apply bind_Ok in H2 as (? & ? & _ & H2).
    apply mret_Ok in H2 as [-> _]. reflexivity. }
  assert (V3 : is_empty gssrc = false -> gs_compiled sp ->
               gsCompiled = srcC GeometryStage gssrc).
  { intros E (G1 & G2 & G3). rewrite E in H3. simpl in H3.
    apply bind_Ok in H3 as (? & ? & _ & H3). apply bind_Ok in H3 as (? & ? & _ & H3).
    rewrite G1, G2, G3 in H3. simpl in H3.
    apply bind_Ok in H3 as (? & ? & _ & H3). apply bind_Ok in H3 as (? & ? & _ & H3).
    apply mret_Ok in H3 as [-> _]. reflexivity. }
  exists h. split.
  - eapply slot_rebuilt_after; [exact Q1 | exact H1 |].
    eapply slot_rebuilt_after; [exact Q2 | exact H2 |].
    eapply slot_rebuilt_after; [exact Q3 | exact H3 | exact Hs].
  - intros [[E F] | [[E F] | (E & G & F)]]; apply Hf.
    + rewrite (V2 E), F. reflexivity.
    + rewrite (V1 E), F. destruct vsCompiled; reflexivity.
    + rewrite (V3 E G), F. destruct vsCompiled, psCompiled; reflexivity.
Qed.

Lemma recompileSource_ComputePass_spec srcC i vssrc st st' :
  recompileSource_ComputePass srcC i vssrc st = Ok (tt, st') ->
  exists h, slot_rebuilt i st st' h /\
            (is_empty vssrc = true \/ srcC ComputeStage vssrc = false -> h = 0).
Proof.
  unfold recompileSource_ComputePass. intros H.
  apply bind_Ok in H as ([cs compiled] & s1 & H1 & H).
  apply relink_then in H as (h & s2 & Hs & Hf & Hk).
  match type of H1 with ?m _ = _ => assert (Q1 : quiet m) by quiet_auto end.
  exists h. split.
  - eapply slot_rebuilt_after; [exact Q1 | exact H1 |].
    eapply slot_rebuilt_before; [apply quiet_glDeleteShader | exact Hs | exact Hk].
  - intros E. apply Hf. destruct (is_empty vssrc) eqn:Ee; simpl in H1.
    + apply mret_Ok in H1 as [H1 _]. inversion H1. reflexivity.
    + apply bind_Ok in H1 as (? & ? & _ & H1). apply mret_Ok in H1 as [H1 _].
      inversion H1. destruct E as [E|E]; [discriminate | rewrite E; reflexivity].
Qed.

Lemma slot_rebuilt_frame i st st' h : slot_rebuilt i st st' h -> slot_frame i st st'.
Proof.
  intros (Hi & Hc & Hl & Hk & _ & calls & L & _).
  unfold slot_frame. repeat split; auto. exists calls. exact L.
Qed.

Lemma slot_rebuilt_degraded i st st' : slot_rebuilt i st st' 0 -> degraded i st st'.
Proof.
  intros (Hi & _ & _ & _ & Hh & D). unfold degraded. rewrite Hi. auto.
Qed.

Lemma slot_frame_refl j st : slot_frame j st st.
Proof.
  unfold slot_frame. repeat split; auto. exists []. symmetry. apply app_nil_r.
Qed.

(** A loop whose round [j] touches slot [j] only: slots that meet the
    failure condition end degraded. *)
Lemma for_range_slots (body : nat -> M unit) (cond : nat -> RenderEngine -> Prop) :
  (forall j st st', body j st = Ok (tt, st') ->
     slot_frame j st st' /\ (cond j st -> degraded j st st')) ->
  (forall j st st', m_items st' = m_items st ->
     m_computeSupported st' = m_computeSupported st -> cond j st -> cond j st') ->
  forall n lo st st', for_range lo n body st = Ok (tt, st') ->
    (m_items st' = m_items st /\
     m_computeSupported st' = m_computeSupported st /\
     (forall k, (k < lo \/ lo + n <= k)%nat ->
        nth_error (m_shaders st') k = nth_error (m_shaders st) k) /\
     exists calls, gl_calls (gl st') = gl_calls (gl st) ++ calls) /\
    (forall i, (lo <= i < lo + n)%nat -> cond i st -> degraded i st st').
Proof.
  intros Hbody Hstable. induction n as [|n IH]; intros lo st st' H.
  - simpl in H. apply mret_Ok in H as [_ ->]. split.
    + repeat split; auto. exists []. symmetry. apply app_nil_r.
    + intros i Hi. lia.
  - simpl in H. apply bind_Ok in H as ([] & s1 & H1 & H).
    destruct (Hbody _ _ _ H1) as ((Fi & Fc & Fl & Fk & calls1 & L1) & Hdeg).
    destruct (IH _ _ _ H) as ((Gi & Gc & Gk & calls2 & L2) & Hrest).
    split.
    + split; [congruence|]. split; [congruence|]. split.
      * intros k Hk. rewrite Gk by lia. apply Fk. lia.
      * exists (calls1 ++ calls2). rewrite L2, L1. symmetry. apply app_assoc.
    + intros i Hi Hc. destruct (Nat.eq_dec i lo) as [->|Hne].
      * destruct (Hdeg Hc) as (Di & Dh & calls & L & D).
        unfold degraded. rewrite Gi, Gk by lia. split; [exact Di|].
        split; [exact Dh|].
        exists (calls1 ++ calls2).
        split; [rewrite L2, L1; symmetry; apply app_assoc|].
        intros p Hp Hp0. apply in_or_app. left.
        assert (calls = calls1)
          by (rewrite L1 in L; eapply app_inv_head; symmetry; exact L).
        subst calls. apply D; assumption.
      * assert (Hc1 : cond i s1) by (eapply Hstable; eassumption).
        destruct (Hrest i ltac:(lia) Hc1) as (Di & Dh & calls & L & D).
        unfold degraded. rewrite Di, Fi. split; [reflexivity|].
        split; [exact Dh|].
        exists (calls1 ++ calls2).
        split; [rewrite L2, L1; symmetry; apply app_assoc|].
        intros p Hp Hp0. apply in_or_app. right.
        assert (calls = calls2)
          by (rewrite L2 in L; eapply app_inv_head; symmetry; exact L).
        subst calls. apply D; [|exact Hp0]. rewrite Fk by exact Hne. exact Hp.
Qed.

Lemma recompile_at_spec mem sc name j st st' :
  recompile_at mem sc name j st = Ok (tt, st') ->
  slot_frame j st st' /\
  (file_compile_fails mem sc name j st -> degraded j st st').
Proof.
  unfold recompile_at. intros H.
  apply bind_Ok in H as (it & s & Hit & H). apply read_items_Ok in Hit as [Hit ->].
  apply vec_at_nth in Hit.
  destruct (String.eqb (Name (item mem it)) name) eqn:En.
  - destruct (Type_ (item mem it)) eqn:Et;
      try (apply mret_Ok in H as [_ ->]; split; [apply slot_frame_refl|];
           intros (it' & Hit' & _ & [[T _]|[T _]]);
           rewrite Hit in Hit'; inversion Hit'; subst it'; congruence).
    + apply recompile_ShaderPass_spec in H as (h & Hs & Hf).
      split; [eapply slot_rebuilt_frame; exact Hs|].
      intros (it' & Hit' & _ & Hc). rewrite Hit in Hit'. inversion Hit'; subst it'.
      destruct Hc as [[_ Hc]|[T _]]; [|congruence].
      rewrite (Hf Hc) in Hs. apply slot_rebuilt_degraded. exact Hs.
    + apply bind_Ok in H as (s & s0 & Hg & H). apply get_Ok in Hg as [-> ->].
      destruct (m_computeSupported st) eqn:Ecs.
      * apply recompile_ComputePass_spec in H as (h & Hs & Hf).
        split; [eapply slot_rebuilt_frame; exact Hs|].
        intros (it' & Hit' & _ & Hc). rewrite Hit in Hit'. inversion Hit'; subst it'.
        destruct Hc as [[T _]|(_ & _ & Hc)]; [congruence|].
        rewrite (Hf Hc) in Hs. apply slot_rebuilt_degraded. exact Hs.
      * apply mret_Ok in H as [_ ->]. split; [apply slot_frame_refl|].
        intros (it' & Hit' & _ & Hc). rewrite Hit in Hit'. inversion Hit'; subst it'.
        destruct Hc as [[T _]|(_ & F & _)]; congruence.
  - apply mret_Ok in H as [_ ->]. split; [apply slot_frame_refl|].
    intros (it' & Hit' & En' & _). rewrite Hit in Hit'. inversion Hit'; subst it'.
    congruence.
Qed.

Lemma recompileSource_at_spec mem srcC name vssrc pssrc gssrc j st st' :
  recompileSource_at mem srcC name vssrc pssrc gssrc j st = Ok (tt, st') ->
  slot_frame j st st' /\
  (source_compile_fails mem srcC name vssrc pssrc gssrc j st -> degraded j st st').
Proof.
  unfold recompileSource_at. intros H.
  apply bind_Ok in H as (it & s & Hit & H). apply read_items_Ok in Hit as [Hit ->].
  apply vec_at_nth in Hit.
  destruct (String.eqb (Name (item mem it)) name) eqn:En.
  - destruct (Type_ (item mem it)) eqn:Et;
      try (apply mret_Ok in H as [_ ->]; split; [apply slot_frame_refl|];
           intros (it' & Hit' & _ & [[T _]|[T _]]);
           rewrite Hit in Hit'; inversion Hit'; subst it'; congruence).
    + apply recompileSource_ShaderPass_spec in H as (h & Hs & Hf).
      split; [eapply slot_rebuilt_frame; exact Hs|].
      intros (it' & Hit' & _ & Hc). rewrite Hit in Hit'. inversion Hit'; subst it'.
      destruct Hc as [[_ Hc]|[T _]]; [|congruence].
      rewrite (Hf Hc) in Hs. apply slot_rebuilt_degraded. exact Hs.
    + apply bind_Ok in H as (s & s0 & Hg & H). apply get_Ok in Hg as [-> ->].
      destruct (m_computeSupported st) eqn:Ecs.
      * apply recompileSource_ComputePass_spec in H as (h & Hs & Hf).
        split; [eapply slot_rebuilt_frame; exact Hs|].
        intros (it' & Hit' & _ & Hc). rewrite Hit in Hit'. inversion Hit'; subst it'.
        destruct Hc as [[T _]|(_ & _ & _ & Hc)]; [congruence|].
        rewrite (Hf (or_intror Hc)) in Hs. apply slot_rebuilt_degraded. exact Hs.
      * apply mret_Ok in H as [_ ->]. split; [apply slot_frame_refl|].
        intros (it' & Hit' & _ & Hc). rewrite Hit in Hit'. inversion Hit'; subst it'.
        destruct Hc as [[T _]|(_ & F & _)]; congruence.
  - apply mret_Ok in H as [_ ->]. split; [apply slot_frame_refl|].
    intros (it' & Hit' & En' & _). rewrite Hit in Hit'. inversion Hit'; subst it'.
    congruence.
Qed.

Lemma Recompile_loop_spec mem sc name st st' :
  Recompile_loop mem sc name st = Ok (tt, st') ->
  m_items st' = m_items st /\
  (forall i, file_compile_fails mem sc name i st -> degraded i st st').
Proof.
  unfold Recompile_loop. intros H.
  apply bind_Ok in H as (s & s0 & Hg & H). apply get_Ok in Hg as [-> ->].
  apply (for_range_slots (recompile_at mem sc name) (file_compile_fails mem sc name))
    in H as ((Hi & _) & Hdeg).
  - split; [exact Hi|]. intros i Hc. apply Hdeg; [|exact Hc].
    destruct Hc as (it & Hit & _).
    assert (Hn : nth_error (m_items st) i <> None) by congruence.
    apply nth_error_Some in Hn. lia.
  - intros j s s' Hb. apply recompile_at_spec. exact Hb.
  - intros j s s' Ei Ec (it & Hit & Hn & Hc). exists it.
    rewrite Ei, Ec. auto.
Qed.

Lemma RecompileFromSource_loop_spec mem srcC name vssrc pssrc gssrc st st' :
  RecompileFromSource_loop mem srcC name vssrc pssrc gssrc st = Ok (tt, st') ->
  m_items st' = m_items st /\
  (forall i, source_compile_fails mem srcC name vssrc pssrc gssrc i st ->
             degraded i st st').
Proof.
  unfold RecompileFromSource_loop. intros H.
  apply bind_Ok in H as (s & s0 & Hg & H). apply get_Ok in Hg as [-> ->].
  apply (for_range_slots (recompileSource_at mem srcC name vssrc pssrc gssrc)
           (source_compile_fails mem srcC name vssrc pssrc gssrc))
    in H as ((Hi & _) & Hdeg).
  - split; [exact Hi|]. intros i Hc. apply Hdeg; [|exact Hc].
    destruct Hc as (it & Hit & _).
    assert (Hn : nth_error (m_items st) i <> None) by congruence.
    apply nth_error_Some in Hn. lia.
  - intros j s s' Hb. apply recompileSource_at_spec. exact Hb.
  - intros j s s' Ei Ec (it & Hit & Hn & Hc). exists it.
    rewrite Ei, Ec. auto.
Qed.

(** *** Rendering skips slots without a program *)

Lemma render_items_slots mem isDebug i pass children :
  forall d st d' evs st',
    render_items mem isDebug i pass children d st = Ok ((d', evs), st') ->
    forall ev, In ev evs -> program_slot ev = Some i.
Proof.
  induction children as [|c rest IH]; intros d st d' evs st' H ev Hin.
  - simpl in H. apply mret_Ok in H as [H _]. inversion H; subst. destruct Hin.
  - simpl in H.
    apply bind_Ok in H as ([dbg dnext] & st1 & H1 & H).
    apply bind_Ok in H as (ev0 & st2 & H2 & H).
    apply bind_Ok in H as ([d2 evs2] & st3 & H3 & H).
    apply mret_Ok in H as [H _]. inversion H; subst d' evs. clear H.
    apply in_app_or in Hin as [Hin|Hin]; [|eapply IH; eassumption].
    destruct (Type_ (item mem c));
      try (apply mret_Ok in H2 as [-> _]; simpl in Hin;
           destruct Hin as [<-|[]]; reflexivity);
      try (apply mret_Ok in H2 as [-> _]; destruct Hin).
    apply bind_Ok in H2 as (? & ? & _ & H2).
    apply bind_Ok in H2 as (? & ? & _ & H2).
    apply mret_Ok in H2 as [-> _]. destruct Hin as [<-|[]]. reflexivity.
Qed.

Lemma render_pass_slots mem isDebug lo d st d1 evs st1 :
  render_pass mem isDebug lo d st = Ok ((d1, evs), st1) ->
  forall ev i, In ev evs -> program_slot ev = Some i ->
    exists p, nth_error (m_shaders st) i = Some p /\ p <> 0.
Proof.
  intros H ev i Hin Hslot. unfold render_pass in H.
  apply bind_Ok in H as (it & st0 & Hit & H).
  apply read_items_Ok in Hit as [Hit ->].
  destruct (Type_ (item mem it)) eqn:Ht.
  - cbv zeta in H.
    match type of H with (if ?b then _ else _) _ = _ => destruct b end.
    + apply mret_Ok in H as [H _]. inversion H; subst. destruct Hin.
    + apply bind_Ok in H as (u & st2 & Hfbo & H).
      apply keeps_m_updatePassFBO in Hfbo.
      apply bind_Ok in H as (p & st3 & Hp & H).
      apply read_shaders_Ok in Hp as [Hp ->]. apply vec_at_nth in Hp.
      assert (Es : m_shaders st2 = m_shaders st)
        by (unfold cache_view in Hfbo; congruence).
      rewrite Es in Hp.
      destruct (p =? 0) eqn:Hp0.
      * apply mret_Ok in H as [H _]. inversion H; subst. destruct Hin.
      * apply bind_Ok in H as (u2 & st4 & _ & H).
        pose proof (render_items_slots _ _ _ _ _ _ _ _ _ _ H ev Hin) as E.
        rewrite Hslot in E. inversion E; subst i.
        exists p. split; [exact Hp|]. apply Z.eqb_neq. exact Hp0.
  - apply bind_Ok in H as (s & s' & Hg & H). apply get_Ok in Hg as [-> ->].
    match type of H with (if ?b then _ else _) _ = _ => destruct b end.
    + apply bind_Ok in H as (p & st3 & Hp & H).
      apply read_shaders_Ok in Hp as [Hp ->]. apply vec_at_nth in Hp.
      destruct (p =? 0) eqn:Hp0.
      * apply mret_Ok in H as [H _]. inversion H; subst. destruct Hin.
      * apply mret_Ok in H as [H _]. inversion H; subst.
        destruct Hin as [<-|[]]. simpl in Hslot. inversion Hslot; subst i.
        exists p. split; [exact Hp|]. apply Z.eqb_neq. exact Hp0.
    + apply mret_Ok in H as [H _]. inversion H; subst. destruct Hin.
  - destruct (negb isDebug); apply mret_Ok in H as [H _]; inversion H; subst.
    + destruct Hin as [<-|[]]. discriminate Hslot.
    + destruct Hin.
  - apply mret_Ok in H as [H _]. inversion H; subst. destruct Hin.
  - apply mret_Ok in H as [H _]. inversion H; subst. destruct Hin.
  - apply mret_Ok in H as [H _]. inversion H; subst. destruct Hin.
  - destruct (negb isDebug); apply mret_Ok in H as [H _]; inversion H; subst.
    + destruct Hin as [<-|[]]. discriminate Hslot.
    + destruct Hin.
Qed.

Lemma render_loop_slots mem isDebug n :
  forall lo d st evs st',
    render_loop mem isDebug lo n d st = Ok (evs, st') ->
    forall ev i, In ev evs -> program_slot ev = Some i ->
      exists p, nth_error (m_shaders st) i = Some p /\ p <> 0.
Proof.
  induction n as [|n IH]; intros lo d st evs st' H ev i Hin Hslot.
  - simpl in H. apply mret_Ok in H as [-> _]. destruct Hin.
  - simpl in H.
    apply bind_Ok in H as ([d1 evs1] & st1 & Hpass & H).
    apply bind_Ok in H as (rest & st2 & Hrest & H).
    apply mret_Ok in H as [-> _].
    apply in_app_or in Hin as [Hin|Hin].
    + eapply render_pass_slots; eassumption.
    + pose proof (keeps_render_pass _ _ _ _ _ _ _ Hpass) as Hk.
      replace (m_shaders st) with (m_shaders st1)
        by (unfold cache_view in Hk; congruence).
      eapply IH; eassumption.
Qed.

Lemma Render_slots mem MAXRT sc width height isDebug items now st evs st' :
  Render mem MAXRT sc width height isDebug items now st = Ok (evs, st') ->
  forall ev i, In ev evs -> program_slot ev = Some i ->
    exists p, nth_error (m_shaders st') i = Some p /\ p <> 0.
Proof.
  intros H ev i Hin Hslot. unfold Render in H.
  apply bind_Ok in H as (s0 & s0' & _ & H).
  apply bind_Ok in H as (u1 & s1 & _ & H).
  apply bind_Ok in H as (u2 & s2 & _ & H).
  apply bind_Ok in H as (sA & sA' & Hg & H). apply get_Ok in Hg as [-> ->].
  apply bind_Ok in H as (evs0 & sB & Hloop & H).
  apply bind_Ok in H as (sB' & sB'' & Hg2 & H). apply get_Ok in Hg2 as [-> ->].
  pose proof (keeps_render_loop _ _ _ _ _ _ _ _ Hloop) as Hk.
  assert (Hfin : m_shaders st' = m_shaders sB /\
                 (evs = evs0 \/ exists q, evs = evs0 ++ [PickHandle q])).
  { destruct (m_pickAwaiting sB).
    - apply bind_Ok in H as (u3 & s3 & H3 & H).
      apply bind_Ok in H as (s4 & s4' & Hg4 & H). apply get_Ok in Hg4 as [-> ->].
      apply bind_Ok in H as (u5 & s5 & H5 & H).
      apply mret_Ok in H as [-> ->]. apply modify_Ok in H5. subst s5.
      split; [|right; eexists; reflexivity]. simpl.
      destruct (Dist_is_inf (m_pickDist sB)).
      + apply modify_Ok in H3. subst s3. reflexivity.
      + apply mret_Ok in H3 as [_ ->]. reflexivity.
    - apply mret_Ok in H as [-> ->]. split; [reflexivity | left; reflexivity]. }
  destruct Hfin as (Hs & Hevs).
  assert (Hin0 : In ev evs0).
  { destruct Hevs as [-> | (q & ->)]; [exact Hin|].
    apply in_app_or in Hin as [Hin|[<-|[]]]; [exact Hin | discriminate Hslot]. }
  rewrite Hs. replace (m_shaders sB) with (m_shaders s2)
    by (unfold cache_view in Hk; congruence).
  eapply render_loop_slots; eassumption.
Qed.

(** *** Initial caching *)

Lemma nth_error_insert_same {A} (v : list A) i x :
  (i <= length v)%nat -> nth_error (firstn i v ++ x :: skipn i v) i = Some x.
Proof.
  intros Hi. rewrite nth_error_app2; rewrite length_firstn, Nat.min_l by lia; [|lia].
  rewrite Nat.sub_diag. reflexivity.
Qed.

Lemma vec_insert_Ok {A} (v : list A) i x v' :
  vec_insert v i x = Ok v' -> nth_error v' i = Some x.
Proof.
  unfold vec_insert. destruct (i <=? length v)%nat eqn:E; intros H; inversion H.
  apply Nat.leb_le in E. apply nth_error_insert_same. exact E.
Qed.

Lemma insert_items_Ok i it st u st' :
  insert_items i it st = Ok (u, st') ->
  nth_error (m_items st') i = Some it /\ m_shaders st' = m_shaders st /\
  m_computeSupported st' = m_computeSupported st.
Proof.
  unfold insert_items. intros H.
  apply bind_Ok in H as (s & s1 & Hg & H). apply get_Ok in Hg as [-> ->].
  apply bind_Ok in H as (v & s2 & Hv & H). apply lift_Ok in Hv as [Hv ->].
  apply modify_Ok in H. subst st'. simpl. split; [|auto].
  eapply vec_insert_Ok. exact Hv.
Qed.

Lemma insert_shaders_Ok i p st u st' :
  insert_shaders i p st = Ok (u, st') ->
  nth_error (m_shaders st') i = Some p /\ m_items st' = m_items st /\
  m_computeSupported st' = m_computeSupported st.
Proof.
  unfold insert_shaders. intros H.
  apply bind_Ok in H as (s & s1 & Hg & H). apply get_Ok in Hg as [-> ->].
  apply bind_Ok in H as (v & s2 & Hv & H). apply lift_Ok in Hv as [Hv ->].
  apply modify_Ok in H. subst st'. simpl. split; [|auto].
  eapply vec_insert_Ok. exact Hv.
Qed.

Lemma insert_debugShaders_Ok i p st u st' :
  insert_debugShaders i p st = Ok (u, st') ->
  m_items st' = m_items st /\ m_shaders st' = m_shaders st.
Proof.
  unfold insert_debugShaders. intros H.
  apply bind_Ok in H as (s & s1 & Hg & H). apply get_Ok in Hg as [-> ->].
  apply bind_Ok in H as (v & s2 & Hv & H). apply lift_Ok in Hv as [Hv ->].
  apply modify_Ok in H. subst st'. auto.
Qed.

Lemma insert_shaderSources_Ok i p st u st' :
  insert_shaderSources i p st = Ok (u, st') ->
  m_items st' = m_items st /\ m_shaders st' = m_shaders st.
Proof.
  unfold insert_shaderSources. intros H.
  apply bind_Ok in H as (s & s1 & Hg & H). apply get_Ok in Hg as [-> ->].
  apply bind_Ok in H as (v & s2 & Hv & H). apply lift_Ok in Hv as [Hv ->].
  apply modify_Ok in H. subst st'. auto.
Qed.

Lemma quiet_set_m_fbos f : quiet (modify (fun st => set_m_fbos (f st) st)).
Proof.
  intros st a st' H. apply modify_Ok in H. subst. repeat split.
  exists []. simpl. symmetry. apply app_nil_r.
Qed.
#[local] Hint Resolve quiet_set_m_fbos : quiet.

Lemma quiet_programs {A} (m : M A) st a st' :
  quiet m -> m st = Ok (a, st') ->
  m_items st' = m_items st /\ m_shaders st' = m_shaders st.
Proof.
  intros Hq H. destruct (Hq _ _ _ H) as (V & _). unfold cache_view in V.
  split; congruence.
Qed.

Lemma cache_add_ShaderPass_spec mem MAXRT sc i it st st' :
  cache_add_ShaderPass mem MAXRT sc i it st = Ok (tt, st') ->
  stage_fails mem sc (Data (item mem it)) ->
  nth_error (m_items st') i = Some it /\ nth_error (m_shaders st') i = Some 0.
Proof.
  unfold cache_add_ShaderPass. cbv zeta. intros H Hfail.
  set (data := Data (item mem it)) in *. set (sp := shaderPass mem data) in *.
  apply bind_Ok in H as (u1 & s1 & H1 & H). apply insert_items_Ok in H1 as (I1 & S1 & _).
  apply bind_Ok in H as (u2 & s2 & H2 & H). apply insert_shaders_Ok in H2 as (S2 & I2 & _).
  apply bind_Ok in H as (u3 & s3 & H3 & H). apply insert_debugShaders_Ok in H3 as (I3 & S3).
  apply bind_Ok in H as (u4 & s4 & H4 & H). apply insert_shaderSources_Ok in H4 as (I4 & S4).
  assert (Hi : nth_error (m_items s4) i = Some it) by (rewrite I4, I3, I2; exact I1).
  assert (Hs : nth_error (m_shaders s4) i = Some 0) by (rewrite S4, S3; exact S2).
  destruct (is_empty (VSPath sp) || is_empty (PSPath sp)).
  - apply mret_Ok in H as [_ ->]. auto.
  - apply bind_Ok in H as (old & s5 & H5 & H).
    apply (quiet_programs _ _ _ _ (quiet_read_shaderSources i)) in H5 as (I5 & S5).
    apply bind_Ok in H as (? & s6 & H6 & H).
    apply (quiet_programs _ _ _ _ (quiet_glDeleteShader _)) in H6 as (I6 & S6).
    apply bind_Ok in H as (? & s7 & H7 & H).
    apply (quiet_programs _ _ _ _ (quiet_glDeleteShader _)) in H7 as (I7 & S7).
    apply bind_Ok in H as (? & s8 & H8 & H).
    apply (quiet_programs _ _ _ _ (quiet_glDeleteShader _)) in H8 as (I8 & S8).
    apply bind_Ok in H as (? & s9 & H9 & H).
    apply (quiet_programs _ _ _ _ (quiet_set_m_fbos _)) in H9 as (I9 & S9).
    apply bind_Ok in H as (vs & s10 & H10 & H).
    apply (quiet_programs _ _ _ _ (quiet_gl_CompileShader _ _)) in H10 as (I10 & S10).
    apply bind_Ok in H as (ps & s11 & H11 & H).
    apply (quiet_programs _ _ _ _ (quiet_gl_CompileShader _ _)) in H11 as (I11 & S11).
    apply bind_Ok in H as ([gs gsCompiled] & s12 & H12 & H).
    assert (Hgv : gs_compiled sp -> gsCompiled = sc GeometryStage data).
    { intros (G1 & G2 & G3). rewrite G1, G2, G3 in H12. simpl in H12.
      apply bind_Ok in H12 as (g & s & _ & H12). apply mret_Ok in H12 as [H12 _].
      inversion H12. reflexivity. }
    match type of H12 with ?m _ = _ =>
      assert (Q12 : quiet m) by quiet_auto;
      apply (quiet_programs _ _ _ _ Q12) in H12 as (I12 & S12)
    end.
    apply bind_Ok in H as (p & s13 & H13 & H).
    apply (quiet_programs _ _ _ _ (quiet_read_shaders i)) in H13 as (I13 & S13).
    apply bind_Ok in H as (? & s14 & H14 & H).
    match type of H14 with ?m _ = _ =>
      assert (Q14 : quiet m) by quiet_auto;
      apply (quiet_programs _ _ _ _ Q14) in H14 as (I14 & S14)
    end.
    apply bind_Ok in H as (d & s15 & H15 & H).
    apply (quiet_programs _ _ _ _ (quiet_read_debugShaders i)) in H15 as (I15 & S15).
    apply bind_Ok in H as (? & s16 & H16 & H).
    match type of H16 with ?m _ = _ =>
      assert (Q16 : quiet m) by quiet_auto;
      apply (quiet_programs _ _ _ _ Q16) in H16 as (I16 & S16)
    end.
    apply bind_Ok in H as (? & s17 & H17 & H).
    apply (quiet_programs _ _ _ _ (quiet_write_shaderSources _ _)) in H as (I18 & S18).
    assert (Hfailed : negb (sc VertexStage data) || negb (sc PixelStage data)
                      || negb gsCompiled = true).
    { destruct Hfail as [E | [E | [G E]]].
      - rewrite E. reflexivity.
      - rewrite E. destruct (sc VertexStage data); reflexivity.
      - rewrite (Hgv G), E.
        destruct (sc VertexStage data), (sc PixelStage data); reflexivity. }
    rewrite Hfailed in H17. apply write_shaders_Ok in H17 as [Hlen ->].
    rewrite I18, S18. simpl. split.
    + rewrite I16, I15, I14, I13, I12, I11, I10, I9, I8, I7, I6, I5. exact Hi.
    + apply nth_error_set_same. exact Hlen.
Qed.

Lemma cache_add_ComputePass_spec mem sc i it st st' :
  cache_add_ComputePass mem sc i it st = Ok (tt, st') ->
  sc ComputeStage (Data (item mem it)) = false ->
  nth_error (m_items st') i = Some it /\ nth_error (m_shaders st') i = Some 0.
Proof.
  unfold cache_add_ComputePass. cbv zeta. intros H Hfail.
  apply bind_Ok in H as (u1 & s1 & H1 & H). apply insert_items_Ok in H1 as (I1 & S1 & _).
  apply bind_Ok in H as (u2 & s2 & H2 & H). apply insert_shaders_Ok in H2 as (S2 & I2 & _).
  apply bind_Ok in H as (u4 & s4 & H4 & H). apply insert_shaderSources_Ok in H4 as (I4 & S4).
  assert (Hi : nth_error (m_items s4) i = Some it) by (rewrite I4, I2; exact I1).
  assert (Hs : nth_error (m_shaders s4) i = Some 0) by (rewrite S4; exact S2).
  destruct (is_empty _).
  - apply mret_Ok in H as [_ ->]. auto.
  - apply bind_Ok in H as (cs & s5 & H5 & H).
    apply (quiet_programs _ _ _ _ (quiet_gl_CompileShader _ _)) in H5 as (I5 & S5).
    apply relink_then in H as (h & s6 & (Ri & _ & _ & _ & Rh & _) & Hf & Hk).
    apply (quiet_programs _ _ _ _ (quiet_write_shaderSources _ _)) in Hk as (I7 & S7).
    rewrite Hfail in Hf. rewrite (Hf eq_refl) in Rh.
    split; [rewrite I7, Ri, I5; exact Hi | rewrite S7; exact Rh].
Qed.

Lemma cache_add_spec mem MAXRT sc items i it st st' :
  cache_add mem MAXRT sc items i st = Ok (tt, st') ->
  nth_error items i = Some it ->
  found_in mem (Data (item mem it)) (m_items st) = false ->
  (Type_ (item mem it) = ShaderPass /\
   stage_fails mem sc (Data (item mem it))) \/
  (Type_ (item mem it) = ComputePass /\ m_computeSupported st = true /\
   sc ComputeStage (Data (item mem it)) = false) ->
  nth_error (m_items st') i = Some it /\ nth_error (m_shaders st') i = Some 0.
Proof.
  unfold cache_add. intros H Hit Hnew Hc.
  apply bind_Ok in H as (it' & s & Hl & H). apply lift_Ok in Hl as [Hl ->].
  apply vec_at_nth in Hl. rewrite Hit in Hl. inversion Hl; subst it'.
  apply bind_Ok in H as (s & s0 & Hg & H). apply get_Ok in Hg as [-> ->].
  rewrite Hnew in H.
  destruct Hc as [[T F] | (T & C & F)]; rewrite T in H.
  - eapply cache_add_ShaderPass_spec; eassumption.
  - rewrite C in H. eapply cache_add_ComputePass_spec; eassumption.
Qed.

(** C8.  A compile failure degrades the pass to the "no program" handle.
    Passes with a program handle are shader passes and compute passes (audio
    passes own a stream and plugin items own nothing in [m_shaders]).
    (1) Initial caching: when the round of [m_cache] that caches a new pass
    finds a stage that does not compile, the pass occupies its slot and the
    slot's program handle is 0.  (2) [Recompile(name)] and
    (3) [RecompileFromSource(name, ...)]: for every slot holding a pass of
    that name with a failing stage, once the recompilation loop is over the
    pass is still in its slot, the slot's handle is 0 and [glDeleteProgram]
    was called on the program the slot held before (when it held one); the
    render that ends both functions starts from that state.  (4) In every
    render, a slot whose handle is 0 when the frame is over has issued no
    draw, state binding, plugin draw or compute dispatch. *)
Theorem compile_failure_degrades (mem : Memory) (MAXRT : nat)
    (shaderCompiles : Stage -> ptr -> bool)
    (sourceCompiles : Stage -> string -> bool) :
  (forall items i it st st',
     cache_add mem MAXRT shaderCompiles items i st = Ok (tt, st') ->
     nth_error items i = Some it ->
     found_in mem (Data (item mem it)) (m_items st) = false ->
     (Type_ (item mem it) = ShaderPass /\
      stage_fails mem shaderCompiles (Data (item mem it))) \/
     (Type_ (item mem it) = ComputePass /\ m_computeSupported st = true /\
      shaderCompiles ComputeStage (Data (item mem it)) = false) ->
     nth_error (m_items st') i = Some it /\
     nth_error (m_shaders st') i = Some 0) /\
  (forall name items now st evs st',
     Recompile mem MAXRT shaderCompiles name items now st = Ok (evs, st') ->
     exists s1,
       Recompile_loop mem shaderCompiles name st = Ok (tt, s1) /\
       Render_again mem MAXRT shaderCompiles false items now s1 = Ok (evs, st') /\
       forall i, file_compile_fails mem shaderCompiles name i st ->
                 degraded i st s1) /\
  (forall name vssrc pssrc gssrc items now st evs st',
     RecompileFromSource mem MAXRT shaderCompiles sourceCompiles
       name vssrc pssrc gssrc items now st = Ok (evs, st') ->
     exists s1,
       RecompileFromSource_loop mem sourceCompiles name vssrc pssrc gssrc st
         = Ok (tt, s1) /\
       Render_again mem MAXRT shaderCompiles false items now s1 = Ok (evs, st') /\
       forall i, source_compile_fails mem sourceCompiles name vssrc pssrc gssrc i st ->
                 degraded i st s1) /\
  (forall width height isDebug items now st evs st',
     Render mem MAXRT shaderCompiles width height isDebug items now st
       = Ok (evs, st') ->
     forall i, nth_error (m_shaders st') i = Some 0 ->
     forall ev, In ev evs -> program_slot ev <> Some i).
Proof.
  split; [|split; [|split]].
  - intros items i it st st' H Hit Hnew Hc. eapply cache_add_spec; eassumption.
  - intros name items now st evs st' H. unfold Recompile in H.
    apply bind_Ok in H as ([] & s1 & Hloop & H).
    exists s1. split; [exact Hloop|]. split; [exact H|].
    apply Recompile_loop_spec in Hloop as [_ Hdeg]. exact Hdeg.
  - intros name vssrc pssrc gssrc items now st evs st' H.
    unfold RecompileFromSource in H.
    apply bind_Ok in H as ([] & s1 & Hloop & H).
    exists s1. split; [exact Hloop|]. split; [exact H|].
    apply RecompileFromSource_loop_spec in Hloop as [_ Hdeg]. exact Hdeg.
  - intros width height isDebug items now st evs st' H i Hi ev Hin Hslot.
    destruct (Render_slots _ _ _ _ _ _ _ _ _ _ _ H ev i Hin Hslot) as (p & Hp & Hp0).
    rewrite Hi in Hp. inversion Hp. congruence.
Qed.

Lemma compile_failure_degrades_witness :
  Recompile Scene.mem Scene.MAX_RENDER_TEXTURES Scene.broken "Simple" [1; 2]
    (1 # 4) Scene.cached
    = Ok (fst Scene.recompile_result, snd Scene.recompile_result) /\
  file_compile_fails Scene.mem Scene.broken "Simple" 0 Scene.cached /\
  (exists s1,
     Recompile_loop Scene.mem Scene.broken "Simple" Scene.cached = Ok (tt, s1) /\
     degraded 0 Scene.cached s1) /\
  (forall ev, In ev (fst Scene.recompile_result) -> program_slot ev <> Some 0%nat).
Proof.
  assert (H1 : Recompile Scene.mem Scene.MAX_RENDER_TEXTURES Scene.broken "Simple"
                 [1; 2] (1 # 4) Scene.cached
               = Ok (fst Scene.recompile_result, snd Scene.recompile_result))
    by (vm_compute; reflexivity).
  assert (Hf : file_compile_fails Scene.mem Scene.broken "Simple" 0 Scene.cached).
  { exists 1. split; [reflexivity|]. split; [reflexivity|].
    left. split; [reflexivity|]. right. left. reflexivity. }
  assert (H0 : nth_error (m_shaders (snd Scene.recompile_result)) 0 = Some 0)
    by reflexivity.
  destruct (compile_failure_degrades Scene.mem Scene.MAX_RENDER_TEXTURES
              Scene.broken Scene.source_compiles) as (_ & HR & _ & Hrender).
  destruct (HR _ _ _ _ _ _ H1) as (s1 & Hl & Hra & Hd).
  split; [exact H1|]. split; [exact Hf|]. split.
  - exists s1. split; [exact Hl | exact (Hd 0%nat Hf)].
  - unfold Render_again in Hra.
    apply bind_Ok in Hra as (s & s' & Hg & Hra). apply get_Ok in Hg as [-> ->].
    exact (Hrender _ _ _ _ _ _ _ _ Hra 0%nat H0).
Defined.

(** ** Reordering the pipeline *)

(** C1 (a defect of the code).  The engine has cached the four shader passes
    [1; 2; 5; 6] and the user reverses the pipeline to [6; 5; 2; 1].  The
    reconciliation that follows (the debounce interval has passed) runs to
    the end, compiles nothing and keeps every program with its pass, but it
    leaves the shadow list in the order [6; 2; 5; 1]: the shadow list does
    not equal the source list. *)
Theorem reorder_reversal_misplaces :
  m_items Scene.four = [1; 2; 5; 6] /\
  m_shaders Scene.four = [6; 10; 14; 18] /\
  exists st',
    m_cache Scene.mem Scene.MAX_RENDER_TEXTURES Scene.compiles [6; 5; 2; 1] 1
      Scene.four = Ok (tt, st') /\
    m_items st' = [6; 2; 5; 1] /\
    m_items st' <> [6; 5; 2; 1] /\
    m_shaders st' = [18; 10; 14; 6] /\
    gl_calls (gl st') = gl_calls (gl Scene.four).
Proof.
  split; [reflexivity|]. split; [reflexivity|].
  eexists. split; [vm_compute; reflexivity|].
  split; [reflexivity|]. split; [discriminate|]. split; reflexivity.
Qed.

(** ** Flushing the cache *)

(** C3 (a defect of the code).  The engine has cached the shader passes
    [1; 2], whose debug programs are 7 and 11.  [FlushCache()] followed by
    one render rebuilds both passes, but [m_debugShaders] then holds the two
    new debug programs followed by the two old ones: the stale handles 7 and
    11 are still in an engine-owned cache list, [glDeleteProgram] was never
    called on them and the GL context still counts them as live. *)
Theorem flush_keeps_stale_debug_programs :
  m_debugShaders Scene.cached = [7; 11] /\
  exists evs st',
    (FlushCache ≫= fun _ =>
       Render Scene.mem Scene.MAX_RENDER_TEXTURES Scene.compiles 800 600 false
         [1; 2] 1) Scene.cached = Ok (evs, st') /\
    m_items st' = [1; 2] /\
    m_shaders st' = [14; 18] /\
    m_debugShaders st' = [15; 19; 7; 11] /\
    ~ In (DeleteProgram 7) (gl_calls (gl st')) /\
    ~ In (DeleteProgram 11) (gl_calls (gl st')) /\
    In 7 (gl_programs (gl st')) /\ In 11 (gl_programs (gl st')).
Proof.
  split; [reflexivity|].
  eexists _, _. split; [vm_compute; reflexivity|].
  split; [reflexivity|]. split; [reflexivity|]. split; [reflexivity|].
  split; [|split; [|split]].
  - vm_compute. intuition discriminate.
  - vm_compute. intuition discriminate.
  - vm_compute. tauto.
  - vm_compute. tauto.
Qed.

(** ** The preprocessor on concrete sources *)

(** C6 (a defect of the code).  On the spec's example the [#define] lines of
    the active macros land, in list order, right after the [#version] line.
    But [m_applyMacros] looks for the first character that is one of
    [#], [v], [e], [r], [s], [i], [o], [n], not for the directive: under a
    leading comment line [// note] the match is the [n] of the comment, and
    the [#define] line lands before the [#version] line. *)
Theorem macros_land_before_version :
  Preprocessor.m_applyMacros Samples.plain_shader
    [Samples.macroA; Samples.macroB; Samples.macroC]
  = Preprocessor.Done
      (Samples.line "#version 330" ++ Samples.line "#define A 1"
       ++ Samples.line "#define C 3" ++ Preprocessor.str "void main(){}") /\
  Preprocessor.find_first_of Samples.commented_shader
    (Preprocessor.str "#version") 0 = Some 3%nat /\
  Preprocessor.m_applyMacros Samples.commented_shader [Samples.macroA]
  = Preprocessor.Done
      (Samples.line "// note" ++ Samples.line "#define A 1"
       ++ Samples.line "#version 330" ++ Preprocessor.str "void main(){}").
Proof. repeat split; vm_compute; reflexivity. Qed.

(** C7 (a defect of the code).  A source that includes a three-line file and
    then a one-line file expands to a text with both files spliced in, yet
    the line bias it reports is 1, the line count of the file spliced last:
    each splice overwrites [lineBias] instead of adding to it, so the bias
    does not account for the three lines of the first file. *)
Theorem line_bias_is_last_file_only :
  Preprocessor.count_char Preprocessor.newline Samples.fileX = 3%nat /\
  Preprocessor.count_char Preprocessor.newline Samples.fileY = 1%nat /\
  Preprocessor.m_includeCheck [] Samples.siblings 4 Samples.fileMain [] 0 []
  = Preprocessor.Done
      (Samples.fileX ++ [Preprocessor.newline] ++ Samples.fileY
       ++ [Preprocessor.newline] ++ Samples.line "m", 1, []).
Proof. repeat split; vm_compute; reflexivity. Qed.

(** ** Include expansion terminates *)

Module IncludeProofs.
Import Preprocessor IncludeMeasure.

(** *** Searching *)





Lemma starts_with_nil_INC : starts_with INC [] = false.
Proof. reflexivity. Qed.








(** *** Counting directives at line starts *)















(** *** Erasing the directive's line *)







(** *** More fuel gives the same result *)

Section Termination.
Variable IncludePaths : list cstring.
Variable files : gmap cstring cstring.







(** *** The include stack bounds the depth *)








(** *** One directive *)



(** *** The loop *)












End Termination.

(** *** The two-file cycle *)






Lemma two_files_A A B :
  FileExists (two_files A B) (str "./A") = true /\
  LoadProjectFile (two_files A B) (str "./A") = A.
Proof. split; reflexivity. Qed.

Lemma two_files_B A B :
  FileExists (two_files A B) (str "./B") = true /\
  LoadProjectFile (two_files A B) (str "./B") = B.
Proof. split; reflexivity. Qed.








End IncludeProofs.
